(** * Fault collapsing and implication over Roth's five-valued algebra

    A shallow embedding of [collapser.py] and [imply.py].  The module
    [cframe] (Roth values, gates, circuits, faults, fault classes) is
    imported by both programs but is not part of the sources; its data
    types are modelled from the specification and marked as such. *)

From Stdlib Require Import String List Bool Arith Lia.
Import ListNotations.
Open Scope string_scope.

(* ------------------------------------------------------------------ *)
(** ** The five values *)

Module Roth.

(** Modelled from the spec: the value domain of [cframe.Roth],
    V = {Zero, One, X, D, D_b}. *)
Inductive t : Set := Zero | One | X | D | D_b.

Definition eqb (a b : t) : bool :=
  match a, b with
  | Zero, Zero | One, One | X, X | D, D | D_b, D_b => true
  | _, _ => false
  end.

(** Modelled from the spec: [cframe.Roth.invert] swaps 0 and 1, D and
    D_b, and leaves X. *)
Definition invert (v : t) : t :=
  match v with
  | Zero => One | One => Zero | X => X | D => D_b | D_b => D
  end.

(** Good-circuit and faulty-circuit components; [None] is unknown. *)
Definition good (v : t) : option bool :=
  match v with
  | Zero | D_b => Some false
  | One | D => Some true
  | X => None
  end.

Definition bad (v : t) : option bool :=
  match v with
  | Zero | D => Some false
  | One | D_b => Some true
  | X => None
  end.

(** A pair whose faulty component alone is unknown is encoded by its
    good component: the laws of section 8 ask for AND of D_b and X to
    be Zero and for OR of D and X to be One. *)
Definition encode (g b : option bool) : t :=
  match g, b with
  | Some true, Some true => One
  | Some false, Some false => Zero
  | Some true, Some false => D
  | Some false, Some true => D_b
  | Some true, None => One
  | Some false, None => Zero
  | None, _ => X
  end.

Definition and3 (a b : option bool) : option bool :=
  match a, b with
  | Some false, _ | _, Some false => Some false
  | Some true, Some true => Some true
  | _, _ => None
  end.

Definition or3 (a b : option bool) : option bool :=
  match a, b with
  | Some true, _ | _, Some true => Some true
  | Some false, Some false => Some false
  | _, _ => None
  end.

Definition xor3 (a b : option bool) : option bool :=
  match a, b with
  | Some x, Some y => Some (xorb x y)
  | _, _ => None
  end.

Definition lift2 (f : option bool -> option bool -> option bool)
    (a b : t) : t :=
  encode (f (good a) (good b)) (f (bad a) (bad b)).

(** Modelled from the spec: [cframe.Roth.operate], the n-ary reduction
    of the binary operator of the given kind, computed component-wise
    on the good and the faulty circuit and encoded back into V.  The
    development below takes the operator as a parameter; this instance
    is used for the concrete circuits only. *)
Definition operate (kind : string) (values : list t) : t :=
  if kind =? "AND" then fold_left (lift2 and3) values One
  else if kind =? "OR" then fold_left (lift2 or3) values Zero
  else if kind =? "XOR" then fold_left (lift2 xor3) values Zero
  else X.

End Roth.

Abbreviation Roth := Roth.t.

(* ------------------------------------------------------------------ *)
(** ** Faults, gates, circuits *)

Module Fault.

(** Modelled from the spec: [cframe.Fault(value, stem, branch=None)];
    equality is component-wise. *)
Record t : Set := mk { value : Roth; stem : string; branch : option string }.

Definition is_branch (f : t) : bool :=
  match branch f with Some _ => true | None => false end.

Definition eqb (a b : t) : bool :=
  Roth.eqb (value a) (value b) && (stem a =? stem b) &&
  match branch a, branch b with
  | Some x, Some y => x =? y
  | None, None => true
  | _, _ => false
  end.

End Fault.

Abbreviation Fault := Fault.t.

Module Gate.

(** Modelled from the spec: a gate of [cframe.Circuit]. *)
Record t : Set := mk {
  name : string;
  gatetype : string;
  fanin : list string;
  fanout : list string;
  value : Roth;
  flag : bool
}.

Definition set_value (v : Roth) (g : t) : t :=
  mk (name g) (gatetype g) (fanin g) (fanout g) v (flag g).

Definition set_flag (b : bool) (g : t) : t :=
  mk (name g) (gatetype g) (fanin g) (fanout g) (value g) b.

End Gate.

Abbreviation Gate := Gate.t.

(** [gatemap] is a Python dict: iteration follows insertion order, which
    the D-frontier scans depend on, so it is kept as an association list
    read and written at the first entry of a key. *)
Definition Gatemap := list (string * Gate).

Record Circuit : Type := mkCircuit {
  gatemap : Gatemap;
  inputs : list string;
  outputs : list string
}.

Fixpoint lookup (k : string) (m : Gatemap) : option Gate :=
  match m with
  | [] => None
  | (k', g) :: m' => if k' =? k then Some g else lookup k m'
  end.

Fixpoint update (k : string) (f : Gate -> Gate) (m : Gatemap) : Gatemap :=
  match m with
  | [] => []
  | (k', g) :: m' => if k' =? k then (k', f g) :: m' else (k', g) :: update k f m'
  end.

Definition with_gatemap (c : Circuit) (m : Gatemap) : Circuit :=
  mkCircuit m (inputs c) (outputs c).

(* ------------------------------------------------------------------ *)
(** ** Control flow of the Python code

    A statement runs on the circuit and ends normally, by a [return] of
    the enclosing function, or by an exception.  Gate values written
    before a conflict stay written. *)

Inductive exn : Set :=
  KeyError | IndexError | UnboundLocalError | AttributeError | RecursionError
| SystemExit.

Inductive res (A : Type) : Type :=
| Norm (a : A)
| Retn (b : bool)
| Raise (e : exn).
Arguments Norm {A} a.
Arguments Retn {A} b.
Arguments Raise {A} e.

(** Statements over a mutable state [St]: the circuit for the engine, the
    text written so far for the report writers. *)
Definition ST (St A : Type) : Type := St -> St * res A.

Definition M (A : Type) : Type := ST Circuit A.

Definition ret {St A} (a : A) : ST St A := fun s => (s, Norm a).
Definition return_ {St A} (b : bool) : ST St A := fun s => (s, Retn b).
Definition raise {St A} (e : exn) : ST St A := fun s => (s, Raise e).

Definition bind {St A B} (m : ST St A) (k : A -> ST St B) : ST St B :=
  fun s =>
    match m s with
    | (s', Norm a) => k a s'
    | (s', Retn b) => (s', Retn b)
    | (s', Raise e) => (s', Raise e)
    end.

Notation "x <- m ;; k" := (bind m (fun x => k))
  (at level 61, m at next level, right associativity).
Notation "m ;;; k" := (bind m (fun _ => k))
  (at level 61, right associativity).

(** A function call: a [return b] inside the body is the call's value. *)
Definition call {St} (body : ST St bool) : ST St bool :=
  fun s =>
    match body s with
    | (s', Norm b) => (s', Norm b)
    | (s', Retn b) => (s', Norm b)
    | (s', Raise e) => (s', Raise e)
    end.

(** [circuit.gatemap[k]] *)
Definition get_gate (k : string) : M Gate :=
  fun c =>
    match lookup k (gatemap c) with
    | Some g => (c, Norm g)
    | None => (c, Raise KeyError)
    end.

(** [circuit.gatemap.items()] *)
Definition items : M Gatemap := fun c => (c, Norm (gatemap c)).

(** [circuit.gatemap[k].value = v] *)
Definition put_value (k : string) (v : Roth) : M unit :=
  fun c => (with_gatemap c (update k (Gate.set_value v) (gatemap c)), Norm tt).

(** [for x in l: body], with the local variables the body rebinds
    carried in [b]. *)
Fixpoint for_each {St A B} (l : list A) (b : B) (body : A -> B -> ST St B)
  : ST St B :=
  match l with
  | [] => ret b
  | x :: l' => b' <- body x b ;; for_each l' b' body
  end.

(** [if not ok: return False] *)
Definition guard {St} (ok : bool) : ST St unit :=
  if ok then ret tt else return_ false.

(** [l[0]] *)
Definition first {St A} (l : list A) : ST St A :=
  match l with
  | x :: _ => ret x
  | [] => raise IndexError
  end.

(* ------------------------------------------------------------------ *)
(** ** The implication engine ([imply.py]) *)

Inductive Direction : Set := BOTH | FORWARD | BACKWARD.

Definition is_backward (d : Direction) : bool :=
  match d with BACKWARD => true | _ => false end.

(** The scan of the active faults: the value of the last fault whose
    stem is [location], [Roth.X] when there is none. *)
Definition scan_faults (faults : list Fault) (location : string) : Roth :=
  fold_left
    (fun fault_value fault =>
       if Fault.stem fault =? location then Fault.value fault else fault_value)
    faults Roth.X.

(** The chain of tests computing [new_output]; [None] stands for the two
    [return False] branches. *)
Definition new_output_of (fault_value value : Roth) : option Roth :=
  match fault_value, value with
  | Roth.Zero, Roth.One => Some Roth.D
  | Roth.Zero, Roth.Zero => Some Roth.Zero
  | Roth.Zero, Roth.D => Some Roth.D
  | Roth.Zero, Roth.D_b => None
  | Roth.One, Roth.One => Some Roth.One
  | Roth.One, Roth.Zero => Some Roth.D_b
  | Roth.One, Roth.D => None
  | Roth.One, Roth.D_b => Some Roth.D_b
  | Roth.X, _ => Some value
  | _, _ => Some Roth.X
  end.

(** [inputs[v]]: how many fan-ins carry [v]. *)
Definition count (v : Roth) (l : list Roth) : nat :=
  length (filter (Roth.eqb v) l).

(** A dict of forced assignments: a key written again keeps its place. *)
Fixpoint assign (k : string) (v : Roth) (d : list (string * Roth))
  : list (string * Roth) :=
  match d with
  | [] => [(k, v)]
  | (k', v') :: d' => if k' =? k then (k', v) :: d' else (k', v') :: assign k v d'
  end.

Definition assign_all (ks : list string) (v : Roth) (d : list (string * Roth))
  : list (string * Roth) :=
  fold_left (fun d k => assign k v d) ks d.

Definition is_one_or_D (v : Roth) : bool :=
  Roth.eqb v Roth.One || Roth.eqb v Roth.D.

Definition is_zero_or_D_b (v : Roth) : bool :=
  Roth.eqb v Roth.Zero || Roth.eqb v Roth.D_b.

(** The values and the X-valued names of a fan-in list, read in order. *)
Fixpoint read_fanins (names : list string) : M (list Roth * list string) :=
  match names with
  | [] => ret ([], [])
  | n :: names' =>
      g <- get_gate n ;;
      r <- read_fanins names' ;;
      ret (Gate.value g :: fst r,
           if Roth.eqb (Gate.value g) Roth.X then n :: snd r else snd r)
  end.

(** The test closing every all-inputs-known branch: a computed output
    that differs from the stored value is a conflict, unless the stored
    value is D (resp. D_b) and the output 1 (resp. 0). *)
Definition check_output (output stored : Roth) : M unit :=
  if negb (Roth.eqb output stored) then
    guard ((Roth.eqb stored Roth.D && Roth.eqb output Roth.One)
           || (Roth.eqb stored Roth.D_b && Roth.eqb output Roth.Zero))
  else ret tt.

Section Engine.

(** [cframe.Roth.operate] is not part of the sources. *)
Variable operate : string -> list Roth -> Roth.

(** Backward justification of AND, NAND, OR and NOR share one shape:
    [output] is the gate equation over the fan-ins, [hi] tells whether
    the every-X-forced branch is the one for a stored 1/D, [nc] is the
    value counted and forced there, [c] the value counted and forced
    in the last-X branch. *)
Definition justify_and_or (output : Roth) (hi : bool) (nc c : Roth)
    (stored : Roth) (inputs_list : list Roth) (X_inputs_names : list string)
  : M (list (string * Roth)) :=
  if (length X_inputs_names =? 0)%nat then
    check_output output stored ;;; ret []
  else if (if hi then is_one_or_D stored else is_zero_or_D_b stored)
          && (length inputs_list - count nc inputs_list =? count Roth.X inputs_list)%nat
  then ret (assign_all X_inputs_names nc [])
  else if (if hi then is_zero_or_D_b stored else is_one_or_D stored)
          && (length X_inputs_names =? 1)%nat
          && (count c inputs_list =? 0)%nat
          && ((count Roth.D inputs_list =? 0)%nat || (count Roth.D_b inputs_list =? 0)%nat)
  then x <- first X_inputs_names ;; ret [(x, c)]
  else ret [].

Definition no_D_inputs (inputs_list : list Roth) : bool :=
  (count Roth.D inputs_list =? 0)%nat && (count Roth.D_b inputs_list =? 0)%nat.

Definition justify_xor (stored : Roth) (inputs_list : list Roth)
    (X_inputs_names : list string) : M (list (string * Roth)) :=
  let one_number_is_even := Nat.even (count Roth.One inputs_list) in
  let X_number := count Roth.X inputs_list in
  if (length X_inputs_names =? 0)%nat then
    check_output (operate "XOR" inputs_list) stored ;;; ret []
  else if is_one_or_D stored && no_D_inputs inputs_list then
    if (X_number =? 1)%nat && one_number_is_even then
      x <- first X_inputs_names ;; ret [(x, Roth.One)]
    else if (X_number =? 1)%nat && negb one_number_is_even then
      x <- first X_inputs_names ;; ret [(x, Roth.Zero)]
    else ret []
  else if is_zero_or_D_b stored && no_D_inputs inputs_list then
    if (X_number =? 1)%nat && one_number_is_even then
      x <- first X_inputs_names ;; ret [(x, Roth.Zero)]
    else if (X_number =? 1)%nat && negb one_number_is_even then
      x <- first X_inputs_names ;; ret [(x, Roth.One)]
    else ret []
  else ret [].

(** The XNOR chain as it is indented in the source: the odd-count test
    is an [elif] of the outer chain, not of the stored-1 branch. *)
Definition justify_xnor (stored : Roth) (inputs_list : list Roth)
    (X_inputs_names : list string) : M (list (string * Roth)) :=
  let one_number_is_even := Nat.even (count Roth.One inputs_list) in
  let X_number := count Roth.X inputs_list in
  if (length X_inputs_names =? 0)%nat then
    check_output (Roth.invert (operate "XOR" inputs_list)) stored ;;; ret []
  else if is_one_or_D stored && no_D_inputs inputs_list then
    if (X_number =? 1)%nat && one_number_is_even then
      x <- first X_inputs_names ;; ret [(x, Roth.Zero)]
    else ret []
  else if (X_number =? 1)%nat && negb one_number_is_even then
    x <- first X_inputs_names ;; ret [(x, Roth.One)]
  else if is_zero_or_D_b stored && no_D_inputs inputs_list then
    if (X_number =? 1)%nat && one_number_is_even then
      x <- first X_inputs_names ;; ret [(x, Roth.One)]
    else if (X_number =? 1)%nat && negb one_number_is_even then
      x <- first X_inputs_names ;; ret [(x, Roth.Zero)]
    else ret []
  else ret [].

(** BUFF and NOT: [f] is the identity, resp. [Roth.invert]. *)
Definition justify_buff_not (f : Roth -> Roth) (gate_inst : Gate)
    (stored : Roth) (inputs_list : list Roth) : M (list (string * Roth)) :=
  if (count Roth.X inputs_list =? 1)%nat then
    x <- first (Gate.fanin gate_inst) ;; ret [(x, f stored)]
  else
    x <- first (Gate.fanin gate_inst) ;;
    g <- get_gate x ;;
    guard (Roth.eqb (f (Gate.value g)) stored) ;;;
    ret [].

(** Step 3: the dict [assign_location_values] for the gate at
    [location], whose value has just been assigned. *)
Definition justify (gate_inst : Gate) (stored : Roth)
  : M (list (string * Roth)) :=
  let gt := Gate.gatetype gate_inst in
  if gt =? "INPUT" then ret []
  else
    r <- read_fanins (Gate.fanin gate_inst) ;;
    let inputs_list := fst r in
    let X_inputs_names := snd r in
    if gt =? "AND" then
      justify_and_or (operate "AND" inputs_list) true Roth.One Roth.Zero
        stored inputs_list X_inputs_names
    else if gt =? "NAND" then
      justify_and_or (Roth.invert (operate "AND" inputs_list)) false Roth.One Roth.Zero
        stored inputs_list X_inputs_names
    else if gt =? "OR" then
      justify_and_or (operate "OR" inputs_list) false Roth.Zero Roth.One
        stored inputs_list X_inputs_names
    else if gt =? "NOR" then
      justify_and_or (Roth.invert (operate "OR" inputs_list)) true Roth.Zero Roth.One
        stored inputs_list X_inputs_names
    else if gt =? "BUFF" then
      justify_buff_not (fun v => v) gate_inst stored inputs_list
    else if gt =? "NOT" then
      justify_buff_not Roth.invert gate_inst stored inputs_list
    else if gt =? "XOR" then justify_xor stored inputs_list X_inputs_names
    else if gt =? "XNOR" then justify_xnor stored inputs_list X_inputs_names
    else ret [].

(** The gate equation used by the forward evaluations.  BUFF and NOT
    read the local variable [value], not a stored fan-in value.
    [None]: no test matched, [output] keeps its earlier binding. *)
Definition gate_equation (gt : string) (inputs : list Roth) (value : Roth)
  : option Roth :=
  if gt =? "AND" then Some (operate "AND" inputs)
  else if gt =? "NAND" then Some (Roth.invert (operate "AND" inputs))
  else if gt =? "OR" then Some (operate "OR" inputs)
  else if gt =? "NOR" then Some (Roth.invert (operate "OR" inputs))
  else if gt =? "NOT" then Some (Roth.invert value)
  else if gt =? "BUFF" then Some value
  else if gt =? "XOR" then Some (operate "XOR" inputs)
  else if gt =? "XNOR" then Some (Roth.invert (operate "XOR" inputs))
  else None.

(** Reading a local variable that may not have been bound yet. *)
Definition bound (output : option Roth) : M Roth :=
  match output with
  | Some v => ret v
  | None => raise UnboundLocalError
  end.

Section Body.

(** The recursive calls [imply_and_check(circuit, faults, loc, v,
    D_drive, dir)]. *)
Variable rec : string -> Roth -> Direction -> M bool.
Variable location : string.

(** "find the other path": the other fan-outs of a fan-in [loc] that
    has just been forced to [value]. *)
Definition other_paths (loc : string) (value : Roth) (output : option Roth)
  : M (option Roth) :=
  g <- get_gate loc ;;
  for_each (Gate.fanout g) output (fun fanout_inst_name output =>
    if fanout_inst_name =? location then ret output
    else
      fo <- get_gate fanout_inst_name ;;
      if negb (Roth.eqb (Gate.value fo) Roth.X) then
        ok <- rec fanout_inst_name value BACKWARD ;;
        guard ok ;;; ret output
      else
        r <- read_fanins (Gate.fanin fo) ;;
        let output :=
          match gate_equation (Gate.gatetype fo) (fst r) value with
          | Some o => Some o
          | None => output
          end in
        o <- bound output ;;
        ok <- rec fanout_inst_name o BOTH ;;
        guard ok ;;; ret output).

(** The loop over [assign_location_values.items()].  It rebinds the
    locals [value] and [output]; [output] is unbound whenever the
    dict is not empty, the justification binding it only in its
    all-inputs-known branches, which force nothing. *)
Definition backward (assign_location_values : list (string * Roth))
    (value : Roth) : M (Roth * option Roth) :=
  for_each assign_location_values (value, None) (fun lv st =>
    ok <- rec (fst lv) (snd lv) BACKWARD ;;
    guard ok ;;;
    output <- other_paths (fst lv) (snd lv) (snd st) ;;
    ret (snd lv, output)).

Definition is_D_or_D_b (v : Roth) : bool :=
  Roth.eqb v Roth.D || Roth.eqb v Roth.D_b.

(** The inner loop of the D-frontier scan; the test that appends
    [gate_name] sits inside the loop over the fan-ins. *)
Definition scan_gate (gate_name : string) (gate_inst : Gate)
    (st : Roth * list string) : M (Roth * list string) :=
  r <- for_each (Gate.fanin gate_inst) (0, st) (fun fanin_name st =>
         g <- get_gate fanin_name ;;
         let value := Gate.value g in
         let error_count :=
           if is_D_or_D_b value then S (fst st) else fst st in
         ret (error_count,
              (value,
               if (0 <? error_count)%nat
                  && Roth.eqb (Gate.value gate_inst) Roth.X
               then (snd (snd st) ++ [gate_name])%list
               else snd (snd st)))) ;;
  ret (snd r).

(** [if D_drive: ...]: the locals [value], [D_frontiers] and
    [is_only_d_frontier] after the scan. *)
Definition d_drive_scan (value : Roth) : M (Roth * list string * bool) :=
  gates <- items ;;
  st <- for_each gates (value, []) (fun ng st =>
          scan_gate (fst ng) (snd ng) st) ;;
  let D_frontiers := snd st in
  if (length D_frontiers =? 1)%nat then
    d0 <- first D_frontiers ;;
    g <- get_gate d0 ;;
    ret (fst st, D_frontiers, existsb (String.eqb location) (Gate.fanin g))
  else ret (fst st, D_frontiers, false).

(** What unique D-drive forces on the fan-ins of the frontier gate. *)
Definition unique_d_drive (gt : string) (inputs : list Roth)
    (X_inputs_names : list string) : list (string * Roth) :=
  let single_error :=
    ((count Roth.D inputs =? 0)%nat || (count Roth.D_b inputs =? 0)%nat)
    && ((length inputs - count Roth.D inputs =? count Roth.X inputs)%nat
        || (length inputs - count Roth.D_b inputs =? count Roth.X inputs)%nat) in
  if (gt =? "AND") || (gt =? "NAND") then
    if single_error then assign_all X_inputs_names Roth.One [] else []
  else if (gt =? "OR") || (gt =? "NNOR") then
    if single_error then assign_all X_inputs_names Roth.Zero [] else []
  else if (gt =? "XOR") || (gt =? "XNOR") then
    assign_all X_inputs_names Roth.Zero []
  else [].

(** Step 5, the loop over [gate_inst.fanout]. *)
Definition forward (gate_inst : Gate) (is_only_d_frontier : bool)
    (D_frontiers : list string) (value : Roth) : M Roth :=
  for_each (Gate.fanout gate_inst) value (fun fanout_inst_name value =>
    fanout_inst <- get_gate fanout_inst_name ;;
    r <- read_fanins (Gate.fanin fanout_inst) ;;
    let inputs := fst r in
    let X_inputs_names := snd r in
    let output :=
      match gate_equation (Gate.gatetype fanout_inst) inputs value with
      | Some o => o
      | None => Roth.X
      end in
    if negb (Roth.eqb output Roth.X) then
      ok <- rec fanout_inst_name output BOTH ;;
      guard ok ;;; ret value
    else if negb (Roth.eqb (Gate.value fanout_inst) Roth.X) then
      g <- get_gate location ;;
      ok <- rec fanout_inst_name (Gate.value g) BACKWARD ;;
      guard ok ;;; ret value
    else if is_only_d_frontier
            && match D_frontiers with
               | d0 :: _ => fanout_inst_name =? d0
               | [] => false
               end
    then
      for_each
        (unique_d_drive (Gate.gatetype fanout_inst) inputs X_inputs_names)
        value
        (fun lv _ =>
           ok <- rec (fst lv) (snd lv) FORWARD ;;
           guard ok ;;; ret (snd lv))
    else ret value).

(** Steps 1 and 2: the effective value, and its assignment. *)
Definition assign_value (faults : list Fault) (value : Roth) : M unit :=
  gate_inst <- get_gate location ;;
  match new_output_of (scan_faults faults location) value with
  | None => return_ false
  | Some new_output =>
      if Roth.eqb (Gate.value gate_inst) Roth.X
      then put_value location new_output
      else guard (Roth.eqb (Gate.value gate_inst) new_output)
  end.

Definition imply_body (faults : list Fault) (value : Roth)
    (D_drive : bool) (direction : Direction) : M bool :=
  assign_value faults value ;;;
  gate_inst <- get_gate location ;;
  assign_location_values <- justify gate_inst (Gate.value gate_inst) ;;
  bw <- backward assign_location_values value ;;
  sc <- (if D_drive then d_drive_scan (fst bw)
         else ret (fst bw, [], false)) ;;
  (if negb (is_backward direction)
   then forward gate_inst (snd sc) (snd (fst sc)) (fst (fst sc))
   else ret (fst (fst sc))) ;;;
  ret true.

End Body.

(** [imply_and_check]; the fuel bounds the depth of the recursion. *)
Fixpoint imply_and_check (fuel : nat) (faults : list Fault)
    (location : string) (value : Roth) (D_drive : bool)
    (direction : Direction) : M bool :=
  match fuel with
  | 0 => raise RecursionError
  | S fuel' =>
      call (imply_body
              (fun loc v dir => imply_and_check fuel' faults loc v D_drive dir)
              location faults value D_drive direction)
  end.

End Engine.

(* ------------------------------------------------------------------ *)
(** ** Frontier and X-path reports ([imply.py])

    The writers only read the circuit; their state is the text written
    to the output file so far. *)

Definition nl : string := String (Ascii.ascii_of_nat 10) EmptyString.

(** [outfile.write(s)] *)
Definition write (s : string) : ST string unit :=
  fun out => (out ++ s, Norm tt).

(** [circuit.gatemap[k]] where the circuit is not the state. *)
Definition gate_of {St} (circuit : Circuit) (k : string) : ST St Gate :=
  match lookup k (gatemap circuit) with
  | Some g => ret g
  | None => raise KeyError
  end.

(** [[circuit.gatemap[n].value for n in names]] *)
Fixpoint values_of {St} (circuit : Circuit) (names : list string)
  : ST St (list Roth) :=
  match names with
  | [] => ret []
  | n :: names' =>
      g <- gate_of circuit n ;;
      vs <- values_of circuit names' ;;
      ret (Gate.value g :: vs)
  end.

(** A plain [return] ends a procedure. *)
Definition proc {St} (body : ST St unit) : ST St unit :=
  fun s =>
    match body s with
    | (s', Retn _) => (s', Norm tt)
    | r => r
    end.

(** The D-frontier test of the two report writers: the count of D and
    D_b fan-ins is examined after the loop over the fan-ins. *)
Definition on_d_frontier {St} (circuit : Circuit) (gate_inst : Gate)
  : ST St bool :=
  vs <- values_of circuit (Gate.fanin gate_inst) ;;
  let error_count := length (filter is_D_or_D_b vs) in
  ret ((0 <? error_count)%nat && Roth.eqb (Gate.value gate_inst) Roth.X).

Definition report_d_front (circuit : Circuit) : ST string unit :=
  write ("D-Frontier" ++ nl) ;;;
  for_each (gatemap circuit) tt (fun ng _ =>
    b <- on_d_frontier circuit (snd ng) ;;
    if b then write (fst ng ++ nl) else ret tt) ;;;
  write ("$" ++ nl ++ nl).

Section Reports.

Variable operate : string -> list Roth -> Roth.

Definition report_j_front (circuit : Circuit) : ST string unit :=
  write ("J-Frontier" ++ nl) ;;;
  for_each (gatemap circuit) tt (fun ng _ =>
    let gate_inst := snd ng in
    let gt := Gate.gatetype gate_inst in
    inputs <- values_of circuit (Gate.fanin gate_inst) ;;
    output <-
      (if (gt =? "AND") || (gt =? "XOR") || (gt =? "OR")
       then ret (operate gt inputs)
       else if gt =? "XNOR" then ret (Roth.invert (operate "XOR" inputs))
       else if gt =? "NAND" then ret (Roth.invert (operate "AND" inputs))
       else if gt =? "BUFF" then
         x <- first (Gate.fanin gate_inst) ;;
         g <- gate_of circuit x ;; ret (Gate.value g)
       else if gt =? "NOT" then
         x <- first (Gate.fanin gate_inst) ;;
         g <- gate_of circuit x ;; ret (Roth.invert (Gate.value g))
       else ret Roth.X) ;;
    if negb (gt =? "INPUT") && Roth.eqb output Roth.X
       && negb (Roth.eqb (Gate.value gate_inst) Roth.X)
    then write (fst ng ++ nl) else ret tt) ;;;
  write ("$" ++ nl ++ nl).

End Reports.

(** The loop over the fan-ins of one fan-out in [x_path_check_utils]:
    the number of X fan-ins other than [gate_name]. *)
Definition x_count {St} (circuit : Circuit) (gate_name : string)
    (fanins : list string) : ST St nat :=
  for_each fanins 0 (fun fanin_name X_count =>
    if fanin_name =? gate_name then ret X_count
    else
      g <- gate_of circuit fanin_name ;;
      if Roth.eqb (Gate.value g) Roth.X then ret (S X_count) else ret X_count).

Fixpoint x_path_check_utils {St} (fuel : nat) (circuit : Circuit)
    (gate_name : string) : ST St bool :=
  match fuel with
  | 0 => raise RecursionError
  | S fuel' =>
      call (
        g <- gate_of circuit gate_name ;;
        if (length (Gate.fanout g) =? 0)%nat then return_ true
        else
          for_each (Gate.fanout g) tt (fun fanout_name _ =>
            fo <- gate_of circuit fanout_name ;;
            X_count <- x_count circuit gate_name (Gate.fanin fo) ;;
            if (0 <? X_count)%nat || (Gate.gatetype fo =? "NOT") then
              b <- x_path_check_utils fuel' circuit fanout_name ;;
              if b then return_ true else ret tt
            else ret tt) ;;;
          ret false)
  end.

Definition x_path_check (fuel : nat) (circuit : Circuit) : ST string unit :=
  proc (
    write ("X-PATH" ++ nl) ;;;
    for_each (gatemap circuit) tt (fun ng _ =>
      let gate_inst := snd ng in
      b <- on_d_frontier circuit gate_inst ;;
      if b then
        found <- x_path_check_utils fuel circuit (Gate.name gate_inst) ;;
        if found then
          write (Gate.name gate_inst ++ nl) ;;; return_ true
        else ret tt
      else ret tt) ;;;
    write ("$" ++ nl ++ nl)).

(* ------------------------------------------------------------------ *)
(** ** The command loop of [imply.py] *)

Module Command.
Inductive t : Set :=
| Fault (loc : string) (val : Roth)
| Imply (loc : string) (val : Roth)
| Jfront
| Dfront
| Xpath
| Display.
End Command.

Record Run : Type := mkRun {
  circ : Circuit;
  faults : list Fault;
  ofile : string
}.

Definition on_circ {A} (m : M A) : ST Run A :=
  fun r => (mkRun (fst (m (circ r))) (faults r) (ofile r), snd (m (circ r))).

Definition on_ofile {A} (m : Circuit -> ST string A) : ST Run A :=
  fun r =>
    (mkRun (circ r) (faults r) (fst (m (circ r) (ofile r))),
     snd (m (circ r) (ofile r))).

Section Main.

Variable operate : string -> list Roth -> Roth.
(** [cframe.Circuit.write_state], the text of the state dump. *)
Variable write_state : Circuit -> string.
(** The recursion limit, and the [-u] flag. *)
Variable fuel : nat.
Variable D_drive : bool.

Definition run_command (command : Command.t) : ST Run unit :=
  match command with
  | Command.Fault loc val =>
      fun r => (mkRun (circ r) (faults r ++ [Fault.mk val loc None]) (ofile r),
                Norm tt)
  | Command.Imply loc val =>
      fun r =>
        (valid <- on_circ
                    (imply_and_check operate fuel (faults r) loc val D_drive BOTH) ;;
         if valid then ret tt else raise SystemExit) r
  | Command.Jfront => on_ofile (report_j_front operate)
  | Command.Dfront => on_ofile report_d_front
  | Command.Xpath => on_ofile (x_path_check fuel)
  | Command.Display => on_ofile (fun c => write (write_state c))
  end.

(** The loop of [main] over the commands of the script. *)
Definition run_commands (commands : list Command.t) : ST Run unit :=
  for_each commands tt (fun command _ => run_command command).

End Main.

(* ------------------------------------------------------------------ *)
(** ** Fault classes and the collapser ([collapser.py]) *)

(** Modelled from the spec: [cframe.FaultClass(fault)], a node with the
    ordered, never empty list [equivalent] (its first element, the
    representative, is the fault the class was created from) and the
    list [dominated] of child classes.  The source shares and mutates
    these nodes; here a node is a value and every function that mutates
    [fltclass] returns the node as it is afterwards. *)
#[warnings="-register-all"]
Inductive FaultClass : Type :=
  mkFaultClass (representative : Fault) (added : list Fault)
               (dominated : list FaultClass).

Definition new_class (f : Fault) : FaultClass := mkFaultClass f [] [].

Definition representative (fc : FaultClass) : Fault :=
  match fc with mkFaultClass r _ _ => r end.

Definition equivalent (fc : FaultClass) : list Fault :=
  match fc with mkFaultClass r a _ => r :: a end.

Definition dominated (fc : FaultClass) : list FaultClass :=
  match fc with mkFaultClass _ _ d => d end.

(** Modelled from the spec: [add_equivalent] and [add_dominated] append
    to the two lists. *)
Definition add_equivalent (f : Fault) (fc : FaultClass) : FaultClass :=
  match fc with mkFaultClass r a d => mkFaultClass r (a ++ [f]) d end.

Definition add_dominated (child fc : FaultClass) : FaultClass :=
  match fc with mkFaultClass r a d => mkFaultClass r a (d ++ [child]) end.

(** Results of the collapser's functions. *)
Inductive cres (A : Type) : Type :=
| Ok (a : A)
| Err (e : exn).
Arguments Ok {A} a.
Arguments Err {A} e.

(** What [collapse_fault] leaves behind: the class [fltclass] it was
    given, the classes it appended to [top_fcs], and the list it
    returns. *)
Record Collapsed : Type := mkCollapsed {
  fltclass : FaultClass;
  top_fcs : list FaultClass;
  fin_list : list string
}.

(** The faults [fi_sa0] and [fi_sa1] of the fan-in [fi_name] of the gate
    [gate_name], with the flag [is_branch].  A fan-in with several
    fan-outs none of which is [gate_name] leaves both faults [None]; a
    FaultClass is a class of Faults, so building one from [None] is
    taken to fail. *)
Definition fanin_faults (circ : Circuit) (gate_name fi_name : string)
  : cres (bool * string * Fault * Fault) :=
  match lookup fi_name (gatemap circ) with
  | None => Err KeyError
  | Some fi_gate_inst =>
      let fi_gate_name := Gate.name fi_gate_inst in
      if (length (Gate.fanout fi_gate_inst) =? 1)%nat then
        Ok (false, fi_gate_name,
            Fault.mk Roth.Zero fi_gate_name None,
            Fault.mk Roth.One fi_gate_name None)
      else if existsb (fun fo_name => fo_name =? gate_name)
                (Gate.fanout fi_gate_inst) then
        Ok (true, fi_gate_name,
            Fault.mk Roth.Zero fi_gate_name (Some gate_name),
            Fault.mk Roth.One fi_gate_name (Some gate_name))
      else Err AttributeError
  end.

Section CollapseFanin.

(** The recursive call [collapse_fault(flt, fltclass, top_fcs, circ)]:
    from the class and the classes appended so far to the state
    afterwards. *)
Variable rec : Fault -> FaultClass -> list FaultClass -> cres Collapsed.

(** [fltclass.add_equivalent(f)] and the recursion with the same
    owner. *)
Definition as_equivalent (f : Fault) (st : Collapsed) : cres Collapsed :=
  match rec f (add_equivalent f (fltclass st)) (top_fcs st) with
  | Ok r => Ok (mkCollapsed (fltclass r) (top_fcs r) (fin_list st ++ fin_list r))
  | Err e => Err e
  end.

(** [fltclass.add_dominated(ficlass)] and the recursion with the new
    class as owner; the owner holds the child as the recursion leaves
    it. *)
Definition as_dominated (f : Fault) (st : Collapsed) : cres Collapsed :=
  match rec f (new_class f) (top_fcs st) with
  | Ok r => Ok (mkCollapsed (add_dominated (fltclass r) (fltclass st))
                  (top_fcs r) (fin_list st ++ fin_list r))
  | Err e => Err e
  end.

(** XOR and XNOR under a stuck-at-0 output fault. *)
Definition promote (is_branch : bool) (fi_gate_name : string)
    (fi_sa0 fi_sa1 : Fault) (st : Collapsed) : cres Collapsed :=
  Ok (mkCollapsed (fltclass st)
        (if is_branch
         then top_fcs st ++ [new_class fi_sa0; new_class fi_sa1]
         else top_fcs st)
        (fin_list st ++ [fi_gate_name])).

(** The body of the loop over [gate_inst.fanin]. *)
Definition collapse_fanin (circ : Circuit) (fault_value : Roth)
    (gate_type gate_name fi_name : string) (st : Collapsed) : cres Collapsed :=
  match fanin_faults circ gate_name fi_name with
  | Err e => Err e
  | Ok (is_branch, fi_gate_name, fi_sa0, fi_sa1) =>
      if Roth.eqb fault_value Roth.Zero then
        if gate_type =? "AND" then as_equivalent fi_sa0 st
        else if gate_type =? "NAND" then as_dominated fi_sa1 st
        else if gate_type =? "OR" then as_dominated fi_sa0 st
        else if gate_type =? "NOR" then as_equivalent fi_sa1 st
        else if gate_type =? "XOR" then
          promote is_branch fi_gate_name fi_sa0 fi_sa1 st
        else if gate_type =? "XNOR" then
          promote is_branch fi_gate_name fi_sa0 fi_sa1 st
        else if gate_type =? "NOT" then as_equivalent fi_sa1 st
        else if gate_type =? "BUFF" then as_equivalent fi_sa0 st
        else Ok st
      else if Roth.eqb fault_value Roth.One then
        if gate_type =? "AND" then as_dominated fi_sa1 st
        else if gate_type =? "NAND" then as_equivalent fi_sa0 st
        else if gate_type =? "OR" then as_equivalent fi_sa1 st
        else if gate_type =? "NOR" then as_dominated fi_sa0 st
        else if gate_type =? "XOR" then Ok st
        else if gate_type =? "XNOR" then Ok st
        else if gate_type =? "NOT" then as_equivalent fi_sa0 st
        else if gate_type =? "BUFF" then as_equivalent fi_sa1 st
        else Ok st
      else Ok st
  end.

Fixpoint collapse_fanins (circ : Circuit) (fault_value : Roth)
    (gate_type gate_name : string) (fanins : list string) (st : Collapsed)
  : cres Collapsed :=
  match fanins with
  | [] => Ok st
  | fi_name :: fanins' =>
      match collapse_fanin circ fault_value gate_type gate_name fi_name st with
      | Ok st' => collapse_fanins circ fault_value gate_type gate_name fanins' st'
      | Err e => Err e
      end
  end.

End CollapseFanin.

(** [collapse_fault]; [top_fcs] holds the classes appended to the
    top-level list since the enclosing root was appended.  The stem of a
    fault that is not on a branch is tested by [if not gate_name], which
    the empty name fails as well. *)
Fixpoint collapse_fault (fuel : nat) (circ : Circuit) (flt : Fault)
    (fltclass : FaultClass) (top_fcs : list FaultClass) : cres Collapsed :=
  match fuel with
  | 0 => Err RecursionError
  | S fuel' =>
      if Fault.is_branch flt || (Fault.stem flt =? EmptyString) then
        Ok (mkCollapsed fltclass top_fcs [Fault.stem flt])
      else
        match lookup (Fault.stem flt) (gatemap circ) with
        | None => Err KeyError
        | Some gate_inst =>
            if Gate.gatetype gate_inst =? "INPUT" then
              Ok (mkCollapsed fltclass top_fcs [])
            else
              collapse_fanins (collapse_fault fuel' circ) circ
                (Fault.value flt) (Gate.gatetype gate_inst) (Fault.stem flt)
                (Gate.fanin gate_inst) (mkCollapsed fltclass top_fcs [])
        end
  end.

(** Modelled from the spec: [cframe.Circuit.reset_flags] clears the
    visited flag of every gate. *)
Definition reset_flags (circ : Circuit) : Circuit :=
  with_gatemap circ
    (map (fun ng => (fst ng, Gate.set_flag false (snd ng))) (gatemap circ)).

(** [gate_queue] is a Python set. *)
Definition queue_add (gname : string) (q : list string) : list string :=
  if existsb (String.eqb gname) q then q else (q ++ [gname])%list.

Definition queue_update (gnames : list string) (q : list string) : list string :=
  fold_left (fun q g => queue_add g q) gnames q.

Fixpoint remove_nth {A} (n : nat) (l : list A) : list A :=
  match l, n with
  | [], _ => []
  | _ :: l', 0 => l'
  | x :: l', S n' => x :: remove_nth n' l'
  end.

Section CollapseCircuit.

(** [set.pop()] takes an element of its choosing: the one at position
    [pick q], counted modulo the size of the set. *)
Variable pick : list string -> nat.

(** One root: the class of [Fault(value, gname)], collapsed, followed
    by the classes promoted to the top level meanwhile. *)
Definition collapse_root (fuel : nat) (circ : Circuit) (value : Roth)
    (gname : string) : cres Collapsed :=
  let f := Fault.mk value gname None in
  collapse_fault fuel circ f (new_class f) [].

(** The [while] loop of [collapse_circuit]; [steps] bounds the number
    of its iterations, [fuel] the depth of [collapse_fault]. *)
Fixpoint collapse_loop (steps fuel : nat) (circ : Circuit)
    (top : list FaultClass) (gate_queue : list string)
  : cres (list FaultClass) :=
  match gate_queue with
  | [] => Ok top
  | _ :: _ =>
      match steps with
      | 0 => Err RecursionError
      | S steps' =>
          let i := Nat.modulo (pick gate_queue) (length gate_queue) in
          let gname := nth i gate_queue EmptyString in
          let gate_queue := remove_nth i gate_queue in
          match lookup gname (gatemap circ) with
          | None => Err KeyError
          | Some g =>
              if Gate.flag g then collapse_loop steps' fuel circ top gate_queue
              else
                match collapse_root fuel circ Roth.Zero gname with
                | Err e => Err e
                | Ok r0 =>
                    match collapse_root fuel circ Roth.One gname with
                    | Err e => Err e
                    | Ok r1 =>
                        collapse_loop steps' fuel
                          (with_gatemap circ
                             (update gname (Gate.set_flag true) (gatemap circ)))
                          (top ++ fltclass r0 :: top_fcs r0
                               ++ fltclass r1 :: top_fcs r1)
                          (queue_update (fin_list r1)
                             (queue_update (fin_list r0) gate_queue))
                    end
                end
          end
      end
  end.

Definition collapse_circuit (steps fuel : nat) (circ : Circuit)
  : cres (list FaultClass) :=
  collapse_loop steps fuel (reset_flags circ) []
    (queue_update (outputs circ) []).

End CollapseCircuit.

(* ------------------------------------------------------------------ *)
(** ** The reports of [collapser.py] *)

(** [find_no_dominant_faults_in_faultclass]: the list
    [faults_without_dominate] after the call. *)
Fixpoint find_no_dominant_faults_in_faultclass (fltclass : FaultClass)
    (faults_without_dominate : list FaultClass) : list FaultClass :=
  match fltclass with
  | mkFaultClass _ _ dominated =>
      if (length dominated =? 0)%nat then
        (faults_without_dominate ++ [fltclass])%list
      else
        fold_left
          (fun acc dominated_fault_class =>
             find_no_dominant_faults_in_faultclass dominated_fault_class acc)
          dominated faults_without_dominate
  end.

Definition find_no_dominant_faults (collapsed : list FaultClass)
    (no_dominant_faults : list FaultClass) : list FaultClass :=
  fold_left (fun acc fcs => find_no_dominant_faults_in_faultclass fcs acc)
    collapsed no_dominant_faults.

(** The test of the checkpoint variant on a class without dominated
    classes: its representative is on a branch, or on a gate of type
    INPUT. *)
Definition is_check_point (circ : Circuit) (flt : Fault) : cres bool :=
  if Fault.is_branch flt then Ok true
  else
    match lookup (Fault.stem flt) (gatemap circ) with
    | None => Err KeyError
    | Some g => Ok (Gate.gatetype g =? "INPUT")
    end.

(** [for d in classes: f(d, acc)], for an [f] that may raise. *)
Fixpoint for_classes (f : FaultClass -> list FaultClass -> cres (list FaultClass))
    (classes : list FaultClass) (acc : list FaultClass)
  : cres (list FaultClass) :=
  match classes with
  | [] => Ok acc
  | d :: classes' =>
      match f d acc with
      | Ok acc' => for_classes f classes' acc'
      | Err e => Err e
      end
  end.

(** [find_no_dominant_faults_check_points_in_faultclass].  The inner
    function appends to the list of the enclosing call, which is the
    list it was given. *)
Fixpoint find_no_dominant_faults_check_points_in_faultclass (circ : Circuit)
    (fltclass : FaultClass) (faults_without_dominate_check_points : list FaultClass)
  : cres (list FaultClass) :=
  match fltclass with
  | mkFaultClass flt _ dominated =>
      let recurse :=
        for_classes (find_no_dominant_faults_check_points_in_faultclass circ)
          dominated faults_without_dominate_check_points in
      if (length dominated =? 0)%nat then
        match is_check_point circ flt with
        | Err e => Err e
        | Ok true => Ok (faults_without_dominate_check_points ++ [fltclass])%list
        | Ok false => recurse
        end
      else recurse
  end.

Definition find_no_dominant_faults_check_points (circ : Circuit)
    (collapsed : list FaultClass)
    (no_dominant_faults_check_points : list FaultClass)
  : cres (list FaultClass) :=
  for_classes (find_no_dominant_faults_check_points_in_faultclass circ)
    collapsed no_dominant_faults_check_points.

(** The faults a report lists: [fcs.equivalent[0]] of each class, one
    on each line. *)
Definition listed (classes : list FaultClass) : list Fault :=
  map representative classes.

(** The faults written to the [.analysis] file by the loops of [main]. *)
Definition analysis (no_dominant_faults no_dominant_faults_check_points
                     : list FaultClass) : list Fault :=
  listed
    (filter
       (fun fcs_normal =>
          negb (existsb
                  (fun fcs_check_points =>
                     Fault.eqb (representative fcs_check_points)
                               (representative fcs_normal))
                  no_dominant_faults_check_points))
       no_dominant_faults).

(** The three listings [main] derives from the collapsed forest. *)
Record Listings : Type := mkListings {
  not_dominating : list Fault;
  not_dominating_checkpoint : list Fault;
  analysis_report : list Fault
}.

Definition listings (circ : Circuit) (collapsed : list FaultClass)
  : cres Listings :=
  let no_dominant_faults := find_no_dominant_faults collapsed [] in
  match find_no_dominant_faults_check_points circ collapsed [] with
  | Err e => Err e
  | Ok no_dominant_faults_check_points =>
      Ok (mkListings (listed no_dominant_faults)
            (listed no_dominant_faults_check_points)
            (analysis no_dominant_faults no_dominant_faults_check_points))
  end.

(* ------------------------------------------------------------------ *)
(** ** Small circuits *)

Definition gate (name gatetype : string) (fanin fanout : list string)
  : string * Gate :=
  (name, Gate.mk name gatetype fanin fanout Roth.X false).

Definition with_value (v : Roth) (ng : string * Gate) : string * Gate :=
  (fst ng, Gate.set_value v (snd ng)).

(** The stored values, gate by gate. *)
Definition values (c : Circuit) : list (string * Roth) :=
  map (fun ng => (fst ng, Gate.value (snd ng))) (gatemap c).

(** G = NAND(A, B), output G. *)
Definition nand_circuit : Circuit :=
  mkCircuit
    [gate "A" "INPUT" [] ["G"]; gate "B" "INPUT" [] ["G"];
     gate "G" "NAND" ["A"; "B"] []]
    ["A"; "B"] ["G"].

(** g = t(a, b), output g, for a two-input gate type [t]. *)
Definition two_input (t : string) : Circuit :=
  mkCircuit
    [gate "a" "INPUT" [] ["g"]; gate "b" "INPUT" [] ["g"];
     gate "g" t ["a"; "b"] []]
    ["a"; "b"] ["g"].

(** g = AND(d, a, b) and g = AND(a, b, d), output g. *)
Definition and3_first : Circuit :=
  mkCircuit
    [gate "a" "INPUT" [] ["g"]; gate "b" "INPUT" [] ["g"];
     gate "d" "INPUT" [] ["g"]; gate "g" "AND" ["d"; "a"; "b"] []]
    ["a"; "b"; "d"] ["g"].

Definition and3_last : Circuit :=
  mkCircuit
    [gate "a" "INPUT" [] ["g"]; gate "b" "INPUT" [] ["g"];
     gate "d" "INPUT" [] ["g"]; gate "g" "AND" ["a"; "b"; "d"] []]
    ["a"; "b"; "d"] ["g"].

(** g = BUFF(a), output g. *)
Definition buff_circuit : Circuit :=
  mkCircuit [gate "a" "INPUT" [] ["g"]; gate "g" "BUFF" ["a"] []] ["a"] ["g"].

(** s drives u = XOR(s, x) and v = OR(s, y); outputs u and v. *)
Definition xor_branch_circuit : Circuit :=
  mkCircuit
    [gate "s" "INPUT" [] ["u"; "v"]; gate "x" "INPUT" [] ["u"];
     gate "y" "INPUT" [] ["v"];
     gate "u" "XOR" ["s"; "x"] []; gate "v" "OR" ["s"; "y"] []]
    ["s"; "x"; "y"] ["u"; "v"].

(** A command script run from the initial state, without [-u] and with
    it; the state dump is not looked at. *)
Definition run_script (D_drive : bool) (c : Circuit)
    (commands : list Command.t) : Run * res unit :=
  run_commands Roth.operate (fun _ => EmptyString) 16 D_drive commands (mkRun c [] EmptyString).

(** What a run leaves: the stored values, the text written, and how the
    run ended. *)
Definition outcome (r : Run * res unit)
  : list (string * Roth) * string * res unit :=
  (values (circ (fst r)), ofile (fst r), snd r).

(** g = AND(a, b, d) with D stored on d. *)
Definition d_holds_D : Circuit :=
  mkCircuit
    [gate "a" "INPUT" [] ["g"]; gate "b" "INPUT" [] ["g"];
     with_value Roth.D (gate "d" "INPUT" [] ["g"]);
     gate "g" "AND" ["a"; "b"; "d"] []]
    ["a"; "b"; "d"] ["g"].

(** The forest of the two roots of G = NAND(A, B). *)
Definition nand_forest : list FaultClass :=
  [mkFaultClass (Fault.mk Roth.Zero "G" None) []
     [mkFaultClass (Fault.mk Roth.One "A" None) [] [];
      mkFaultClass (Fault.mk Roth.One "B" None) [] []];
   mkFaultClass (Fault.mk Roth.One "G" None)
     [Fault.mk Roth.Zero "A" None; Fault.mk Roth.Zero "B" None] []].

(** The fan-in faults of u = XOR(s, x), s being a stem with two
    branches. *)
Definition u_fanin_faults : list (bool * string * Fault * Fault) :=
  [(true, "s", Fault.mk Roth.Zero "s" (Some "u"), Fault.mk Roth.One "s" (Some "u"));
   (false, "x", Fault.mk Roth.Zero "x" None, Fault.mk Roth.One "x" None)].

(* ------------------------------------------------------------------ *)
(** ** Notions the statements below are phrased with *)

(** Step 1 of [imply_and_check]: the effective value of an implication
    of [value] on [location]; [None] is the conflict. *)
Definition effective_value (faults : list Fault) (location : string)
    (value : Roth) : option Roth :=
  new_output_of (scan_faults faults location) value.

(** [f] is the active fault on [location] that the engine goes by: no
    fault listed after it sits on the same line. *)
Definition active_on (faults : list Fault) (location : string) (f : Fault)
  : Prop :=
  exists before after,
    faults = (before ++ f :: after)%list /\
    Fault.stem f = location /\
    Forall (fun f' => Fault.stem f' <> location) after.

(** Every gate that holds a definite value in [c] is unchanged in [c']. *)
Definition keeps_definite (c c' : Circuit) : Prop :=
  forall name g,
    lookup name (gatemap c) = Some g -> Gate.value g <> Roth.X ->
    lookup name (gatemap c') = Some g.

(** An entry of the gate map is kept, or its value was X and only the
    value changed. *)
Definition entry_grows (e e' : string * Gate) : Prop :=
  e' = e \/
  (Gate.value (snd e) = Roth.X /\
   exists v, e' = (fst e, Gate.set_value v (snd e))).

Definition grows (c c' : Circuit) : Prop :=
  inputs c' = inputs c /\ outputs c' = outputs c /\
  Forall2 entry_grows (gatemap c) (gatemap c').

(** A statement that never undoes a definite value of the circuit
    [proj] finds in its state. *)
Definition preserves_on {St A} (proj : St -> Circuit) (m : ST St A) : Prop :=
  forall s s' r, m s = (s', r) -> grows (proj s) (proj s').

Abbreviation preserves := (preserves_on (fun c : Circuit => c)).

(** The table of section 4.2 of the specification, read as a function
    from the gate type and the polarity of the output fault to the
    relation and the polarity of the fan-in fault. *)
Inductive Relation : Set := Equivalent | Dominated.

Definition table (gate_type : string) (output_fault : Roth)
  : option (Relation * Roth) :=
  match output_fault with
  | Roth.Zero =>
      if gate_type =? "AND" then Some (Equivalent, Roth.Zero)
      else if gate_type =? "NAND" then Some (Dominated, Roth.One)
      else if gate_type =? "OR" then Some (Dominated, Roth.Zero)
      else if gate_type =? "NOR" then Some (Equivalent, Roth.One)
      else if gate_type =? "NOT" then Some (Equivalent, Roth.One)
      else if gate_type =? "BUFF" then Some (Equivalent, Roth.Zero)
      else None
  | Roth.One =>
      if gate_type =? "AND" then Some (Dominated, Roth.One)
      else if gate_type =? "NAND" then Some (Equivalent, Roth.Zero)
      else if gate_type =? "OR" then Some (Equivalent, Roth.One)
      else if gate_type =? "NOR" then Some (Dominated, Roth.Zero)
      else if gate_type =? "NOT" then Some (Equivalent, Roth.Zero)
      else if gate_type =? "BUFF" then Some (Equivalent, Roth.One)
      else None
  | _ => None
  end.

(** What the specification prescribes for a fan-in fault [f] of an
    owner class: "equivalent" adds [f] to the owner's equivalent list
    and continues with the same owner; "dominated" creates a fresh class
    for [f], attaches it to the owner's dominated list and continues
    with the new class as owner. *)
Definition prescribed
    (rec : Fault -> FaultClass -> list FaultClass -> cres Collapsed)
    (relation : Relation) (f : Fault) (st : Collapsed) : cres Collapsed :=
  match fltclass st, relation with
  | mkFaultClass r a d, Equivalent =>
      match rec f (mkFaultClass r (a ++ [f]) d) (top_fcs st) with
      | Ok after =>
          Ok (mkCollapsed (fltclass after) (top_fcs after)
                (fin_list st ++ fin_list after))
      | Err e => Err e
      end
  | mkFaultClass r a d, Dominated =>
      match rec f (mkFaultClass f [] []) (top_fcs st) with
      | Ok after =>
          Ok (mkCollapsed (mkFaultClass r a (d ++ [fltclass after]))
                (top_fcs after) (fin_list st ++ fin_list after))
      | Err e => Err e
      end
  end.

(** The fan-in fault of the polarity the table names. *)
Definition fanin_fault (polarity : Roth) (fi_sa0 fi_sa1 : Fault) : Fault :=
  match polarity with Roth.Zero => fi_sa0 | _ => fi_sa1 end.

(** The classes an XOR or XNOR gate promotes to the top level, and the
    names it hands back, for the fan-in faults [rs] of its fan-ins. *)
Definition promoted (rs : list (bool * string * Fault * Fault))
  : list FaultClass :=
  flat_map
    (fun r =>
       match r with
       | (is_branch, _, fi_sa0, fi_sa1) =>
           if is_branch : bool then [new_class fi_sa0; new_class fi_sa1] else []
       end) rs.

Definition handed_back (rs : list (bool * string * Fault * Fault))
  : list string :=
  map (fun r => match r with (_, fi_gate_name, _, _) => fi_gate_name end) rs.

(** The fan-in faults [r] of the fan-in [fi] of [gate_name] name the
    gate that drives [fi], are flagged as a branch exactly when that
    gate has more than one fan-out, and then sit on the branch to
    [gate_name]. *)
Definition is_branch_of (circ : Circuit) (gate_name fi : string)
    (r : bool * string * Fault * Fault) : Prop :=
  match r with
  | (is_branch, fi_gate_name, fi_sa0, fi_sa1) =>
      exists g,
        lookup fi (gatemap circ) = Some g /\
        fi_gate_name = Gate.name g /\
        (is_branch = true <-> 1 < length (Gate.fanout g)) /\
        fi_sa0 = Fault.mk Roth.Zero (Gate.name g)
                   (if is_branch then Some gate_name else None) /\
        fi_sa1 = Fault.mk Roth.One (Gate.name g)
                   (if is_branch then Some gate_name else None)
  end.

(** The classes without dominated classes below [fc], as
    [find_no_dominant_faults_in_faultclass] collects them. *)
Definition leaves (fc : FaultClass) : list FaultClass :=
  find_no_dominant_faults_in_faultclass fc [].

(** What the checkpoint walk appends is among the leaves. *)
Definition appends_leaves (circ : Circuit) (fc : FaultClass) : Prop :=
  forall acc acc',
    find_no_dominant_faults_check_points_in_faultclass circ fc acc = Ok acc' ->
    exists extra, acc' = (acc ++ extra)%list /\ incl extra (leaves fc).

(** The checkpoint test can be made on the representative of [fc]. *)
Definition testable (circ : Circuit) (fc : FaultClass) : Prop :=
  exists b, is_check_point circ (representative fc) = Ok b.

(* ------------------------------------------------------------------ *)
(** ** Relations a statement keeps between the state before and after *)

(** Every run of [m] takes a state to one related to it by [R]. *)
Definition keeps {St A} (R : St -> St -> Prop) (m : ST St A) : Prop :=
  forall s s' r, m s = (s', r) -> R s s'.

(** Only gate values differ between [c] and [c']: the same keys in the
    same order, and under each key a gate with the same name, type,
    fan-in, fan-out and flag. *)
Definition same_wiring (c c' : Circuit) : Prop :=
  inputs c' = inputs c /\ outputs c' = outputs c /\
  map fst (gatemap c') = map fst (gatemap c) /\
  map (fun ng => Gate.set_value Roth.X (snd ng)) (gatemap c')
  = map (fun ng => Gate.set_value Roth.X (snd ng)) (gatemap c).

(** [v] is a value step 1 can come up with on the line [k]. *)
Definition admissible (faults : list Fault) (k : string) (v : Roth) : Prop :=
  exists incoming, new_output_of (scan_faults faults k) incoming = Some v.

(** From [c] to [c'] values only get more defined, and every value that
    changed is one step 1 came up with for its line. *)
Definition respects (faults : list Fault) (c c' : Circuit) : Prop :=
  grows c c' /\
  forall k g g',
    lookup k (gatemap c) = Some g -> lookup k (gatemap c') = Some g' ->
    Gate.value g' = Gate.value g \/ admissible faults k (Gate.value g').

(** [circuit.gatemap[location].value = v] as a function of the circuit. *)
Definition store (location : string) (v : Roth) (c : Circuit) : Circuit :=
  with_gatemap c (update location (Gate.set_value v) (gatemap c)).

(* ------------------------------------------------------------------ *)
(** ** What the report writers look for *)

(** The number of fan-ins in [fanins], other than [gate_name], that
    hold X. *)
Definition other_X_count (circuit : Circuit) (gate_name : string)
    (fanins : list string) : nat :=
  length
    (filter
       (fun n =>
          negb (n =? gate_name)
          && match lookup n (gatemap circuit) with
             | Some g => Roth.eqb (Gate.value g) Roth.X
             | None => false
             end)
       fanins).

(** An X-path from a gate: a chain of fan-out edges that ends on a gate
    without fan-out, each gate entered being a NOT or having an X on
    another fan-in than the one it is entered by. *)
Inductive x_path (circuit : Circuit) : string -> Prop :=
| x_path_end (name : string) (g : Gate) :
    lookup name (gatemap circuit) = Some g ->
    Gate.fanout g = [] ->
    x_path circuit name
| x_path_through (name : string) (g : Gate) (fanout_name : string) (fo : Gate) :
    lookup name (gatemap circuit) = Some g ->
    In fanout_name (Gate.fanout g) ->
    lookup fanout_name (gatemap circuit) = Some fo ->
    0 < other_X_count circuit name (Gate.fanin fo)
    \/ Gate.gatetype fo = "NOT" ->
    x_path circuit fanout_name ->
    x_path circuit name.

(** The text [s'] is [s] with something written after it. *)
Definition extends (s s' : string) : Prop := exists t, s' = s ++ t.

(** Every name in a fan-in list of the circuit is a key of its gate
    map. *)
Definition fanins_known (circuit : Circuit) : Prop :=
  Forall
    (fun ng =>
       Forall (fun n => lookup n (gatemap circuit) <> None) (Gate.fanin (snd ng)))
    (gatemap circuit).

(** The value a fan-in name stands for; X for a name that is no key. *)
Definition value_of (circuit : Circuit) (n : string) : Roth :=
  match lookup n (gatemap circuit) with
  | Some g => Gate.value g
  | None => Roth.X
  end.

(** A gate on the D-frontier: it holds X and a fan-in holds D or D_b. *)
Definition d_frontier (circuit : Circuit) (g : Gate) : bool :=
  existsb (fun n => is_D_or_D_b (value_of circuit n)) (Gate.fanin g)
  && Roth.eqb (Gate.value g) Roth.X.

(** One line for each name. *)
Definition lines (names : list string) : string :=
  fold_right (fun n text => n ++ nl ++ text) EmptyString names.

(** What the loop of [x_path_check_utils] over the fan-outs [names] of
    [gate_name] tells by the way it ends: run to its end, no fan-out
    that may be entered has an X-path; left by [return True], one has. *)
Definition fanout_verdict (circuit : Circuit) (gate_name : string)
    (names : list string) (r : res unit) : Prop :=
  match r with
  | Norm _ =>
      forall fanout_name fo,
        In fanout_name names ->
        lookup fanout_name (gatemap circuit) = Some fo ->
        0 < other_X_count circuit gate_name (Gate.fanin fo)
        \/ Gate.gatetype fo = "NOT" ->
        ~ x_path circuit fanout_name
  | Retn b =>
      b = true /\
      exists fanout_name fo,
        In fanout_name names /\
        lookup fanout_name (gatemap circuit) = Some fo /\
        (0 < other_X_count circuit gate_name (Gate.fanin fo)
         \/ Gate.gatetype fo = "NOT") /\
        x_path circuit fanout_name
  | Raise _ => True
  end.


(** The commands that write a report. *)
Definition is_report (command : Command.t) : bool :=
  match command with
  | Command.Jfront | Command.Dfront | Command.Xpath | Command.Display => true
  | _ => false
  end.

(** No gate of [l] on the D-frontier has an X-path. *)
Definition no_x_path (circuit : Circuit) (l : Gatemap) : Prop :=
  forall ng, In ng l -> d_frontier circuit (snd ng) = true ->
             ~ x_path circuit (Gate.name (snd ng)).

(** [ng] is the first gate of [l] on the D-frontier with an X-path. *)
Definition first_x_path (circuit : Circuit) (l : Gatemap) (ng : string * Gate)
  : Prop :=
  exists pre post,
    l = (pre ++ ng :: post)%list /\
    no_x_path circuit pre /\
    d_frontier circuit (snd ng) = true /\
    x_path circuit (Gate.name (snd ng)).

(* ------------------------------------------------------------------ *)
(** ** The order listing ([collapser.py]) *)

(** [order]: the list [ordered] after the call. *)
Fixpoint order (fltclass : FaultClass) (ordered : list FaultClass)
  : list FaultClass :=
  match fltclass with
  | mkFaultClass _ _ dominated =>
      if (length dominated =? 0)%nat then (ordered ++ [fltclass])%list
      else
        fold_left
          (fun acc dominated_fault_class => order dominated_fault_class acc)
          dominated
          (if (0 <? length dominated)%nat
           then (ordered ++ [fltclass])%list
           else ordered)
  end.

(** The loop of [main] that fills [ordered]. *)
Definition order_all (collapsed : list FaultClass) : list FaultClass :=
  fold_left (fun ordered fcs => order fcs ordered) collapsed [].

(** A class freshly made for a fault on a branch. *)
Definition fresh_branch_class (fc : FaultClass) : Prop :=
  exists f, fc = new_class f /\ Fault.is_branch f = true.

(** From the class [fc] and the top-level classes [top] to [fc'] and
    [top']: the representative is the same, and the equivalent faults,
    the dominated classes and the top-level classes are the old ones
    followed by new ones, the new top-level ones being fresh classes of
    branch faults. *)
Definition appended (fc : FaultClass) (top : list FaultClass)
    (fc' : FaultClass) (top' : list FaultClass) : Prop :=
  representative fc' = representative fc /\
  (exists a, equivalent fc' = (equivalent fc ++ a)%list) /\
  (exists d, dominated fc' = (dominated fc ++ d)%list) /\
  (exists t, top' = (top ++ t)%list /\ Forall fresh_branch_class t).

(** The checkpoint test on the representative of a class. *)
Definition on_check_point (circ : Circuit) (fc : FaultClass) : bool :=
  match is_check_point circ (representative fc) with
  | Ok b => b
  | Err _ => false
  end.

(** The representatives of a class and of all classes below it. *)
Fixpoint reps (fc : FaultClass) : list Fault :=
  match fc with
  | mkFaultClass r _ d => r :: flat_map reps d
  end.

(** The checkpoint test can be made on the fault [f]. *)
Definition listable (circ : Circuit) (f : Fault) : Prop :=
  exists b, is_check_point circ f = Ok b.

(** Every gate is stored under its own name. *)
Definition well_named (circ : Circuit) : Prop :=
  forall k g, lookup k (gatemap circ) = Some g -> Gate.name g = k.

(** Every gate of [circ'] is stored under its own name, which is a key
    of [circ] as well. *)
Definition named_in (circ circ' : Circuit) : Prop :=
  forall k g, lookup k (gatemap circ') = Some g ->
              Gate.name g = k /\ lookup k (gatemap circ) <> None.

(** The checkpoint test can be made all over the classes [l]. *)
Definition all_listable (circ : Circuit) (l : list FaultClass) : Prop :=
  Forall (fun fc => Forall (listable circ) (reps fc)) l.

(** The fan-out lists agree with the fan-in lists: a gate is among the
    fan-outs of each of its fan-ins that the gate map holds. *)
Definition fanouts_consistent (circ : Circuit) : bool :=
  forallb
    (fun ng =>
       forallb
         (fun fi =>
            match lookup fi (gatemap circ) with
            | Some fg => existsb (fun fo_name => fo_name =? fst ng) (Gate.fanout fg)
            | None => true
            end)
         (Gate.fanin (snd ng)))
    (gatemap circ).

(* ================================================================== *)
(** * Properties *)

(** ** Equality tests *)

Lemma Roth_eqb_spec (a b : Roth) : reflect (a = b) (Roth.eqb a b).
Proof. destruct a, b; simpl; constructor; congruence. Qed.

Lemma Roth_eqb_refl (a : Roth) : Roth.eqb a a = true.
Proof. now destruct a. Qed.

Lemma Fault_eqb_spec (a b : Fault) : reflect (a = b) (Fault.eqb a b).
Proof.
  destruct a as [va sa ba], b as [vb sb bb]; unfold Fault.eqb; simpl.
  destruct (Roth_eqb_spec va vb); simpl; [|constructor; congruence].
  destruct (String.eqb_spec sa sb); simpl; [|constructor; congruence].
  destruct ba as [x|], bb as [y|]; try (constructor; congruence).
  destruct (String.eqb_spec x y); constructor; congruence.
Qed.

(** ** The algebra instance and the laws of section 8 *)

Lemma invert_involutive (v : Roth) : Roth.invert (Roth.invert v) = v.
Proof. now destruct v. Qed.

Lemma operate_and_X (v : Roth) :
  Roth.operate "AND" [v; Roth.X]
  = match v with Roth.Zero | Roth.D_b => Roth.Zero | _ => Roth.X end.
Proof. now destruct v. Qed.

Lemma operate_or_X (v : Roth) :
  Roth.operate "OR" [v; Roth.X]
  = match v with Roth.One | Roth.D => Roth.One | _ => Roth.X end.
Proof. now destruct v. Qed.

Lemma operate_commutative (kind : string) (a b : Roth) :
  Roth.operate kind [a; b] = Roth.operate kind [b; a].
Proof.
  unfold Roth.operate.
  destruct (kind =? "AND"); [now destruct a, b|].
  destruct (kind =? "OR"); [now destruct a, b|].
  destruct (kind =? "XOR"); [now destruct a, b | reflexivity].
Qed.

Lemma operate_associative (kind : string) (a b c : Roth) :
  Roth.operate kind [Roth.operate kind [a; b]; c]
  = Roth.operate kind [a; Roth.operate kind [b; c]].
Proof.
  unfold Roth.operate.
  destruct (kind =? "AND"); [now destruct a, b, c|].
  destruct (kind =? "OR"); [now destruct a, b, c|].
  destruct (kind =? "XOR"); [now destruct a, b, c | reflexivity].
Qed.

(** ** Gate values only ever get more defined *)

Lemma entry_grows_refl (e : string * Gate) : entry_grows e e.
Proof. now left. Qed.

Lemma entry_grows_trans (e1 e2 e3 : string * Gate) :
  entry_grows e1 e2 -> entry_grows e2 e3 -> entry_grows e1 e3.
Proof.
  intros [-> | [HX [v ->]]] H23; [exact H23|].
  destruct H23 as [-> | [_ [w ->]]]; right; split; trivial.
  - now exists v.
  - now exists w.
Qed.

Lemma gatemap_grows_refl (m : Gatemap) : Forall2 entry_grows m m.
Proof. induction m; constructor; auto using entry_grows_refl. Qed.

Lemma gatemap_grows_trans (m1 m2 m3 : Gatemap) :
  Forall2 entry_grows m1 m2 -> Forall2 entry_grows m2 m3 ->
  Forall2 entry_grows m1 m3.
Proof.
  intros H12; revert m3.
  induction H12; intros m3 H23; inversion H23; subst; constructor;
    eauto using entry_grows_trans.
Qed.

Lemma grows_refl (c : Circuit) : grows c c.
Proof. repeat split. apply gatemap_grows_refl. Qed.

Lemma grows_trans (c1 c2 c3 : Circuit) :
  grows c1 c2 -> grows c2 c3 -> grows c1 c3.
Proof.
  intros (Hi & Ho & H) (Hi' & Ho' & H'). repeat split; try congruence.
  eapply gatemap_grows_trans; eassumption.
Qed.

Lemma update_grows (k : string) (v : Roth) (m : Gatemap) (g : Gate) :
  lookup k m = Some g -> Gate.value g = Roth.X ->
  Forall2 entry_grows m (update k (Gate.set_value v) m).
Proof.
  induction m as [|[k' g'] m IH]; simpl; [discriminate|].
  destruct (String.eqb_spec k' k) as [->|Hne]; intros Hl HX.
  - injection Hl as ->. constructor; [|apply gatemap_grows_refl].
    right. split; [exact HX|]. now exists v.
  - constructor; [apply entry_grows_refl | now apply IH].
Qed.

Lemma lookup_update (k : string) (f : Gate -> Gate) (m : Gatemap) :
  lookup k (update k f m) = option_map f (lookup k m).
Proof.
  induction m as [|[k' g'] m IH]; simpl; trivial.
  destruct (String.eqb_spec k' k) as [->|Hne]; simpl.
  - now rewrite String.eqb_refl.
  - destruct (String.eqb_spec k' k); [contradiction | exact IH].
Qed.

(** Along [grows] a gate is found again with the same wiring, and a
    definite gate is found unchanged. *)
Lemma grows_lookup (c c' : Circuit) (k : string) (g : Gate) :
  grows c c' -> lookup k (gatemap c) = Some g ->
  exists v, lookup k (gatemap c') = Some (Gate.set_value v g) /\
            (Gate.value g <> Roth.X -> v = Gate.value g).
Proof.
  intros (_ & _ & H). induction H as [|[k1 g1] [k2 g2] m m' He H IH]; simpl;
    [discriminate|].
  assert (Hk : k2 = k1).
  { destruct He as [E | [_ [v E]]]; injection E; auto. }
  subst k2. destruct (String.eqb_spec k1 k) as [->|Hne]; [|exact IH].
  intros Hl; injection Hl as ->.
  destruct He as [E | [HX [v E]]]; injection E as ->.
  - exists (Gate.value g). split; [now destruct g | trivial].
  - exists v. split; [trivial | intros Hd; contradiction].
Qed.

Lemma grows_keeps_definite (c c' : Circuit) : grows c c' -> keeps_definite c c'.
Proof.
  intros Hg k g Hl Hd. destruct (grows_lookup _ _ _ _ Hg Hl) as (v & Hl' & Hv).
  rewrite Hl', (Hv Hd). now destruct g.
Qed.

Section PreservesOn.

Context {St : Type} (proj : St -> Circuit).

Lemma preserves_ret {A} (a : A) : preserves_on proj (ret a).
Proof. intros c c' r [= <- _]. apply grows_refl. Qed.

Lemma preserves_return {A} (b : bool) : preserves_on proj (@return_ St A b).
Proof. intros c c' r [= <- _]. apply grows_refl. Qed.

Lemma preserves_raise {A} (e : exn) : preserves_on proj (@raise St A e).
Proof. intros c c' r [= <- _]. apply grows_refl. Qed.

Lemma preserves_bind {A B} (m : ST St A) (k : A -> ST St B) :
  preserves_on proj m -> (forall a, preserves_on proj (k a)) ->
  preserves_on proj (bind m k).
Proof.
  intros Hm Hk c c' r. unfold bind.
  destruct (m c) as [c1 [a|b|e]] eqn:E; intros H.
  - eapply grows_trans; [eapply Hm; eassumption | eapply Hk; eassumption].
  - injection H as <- _. eapply Hm; eassumption.
  - injection H as <- _. eapply Hm; eassumption.
Qed.

Lemma preserves_for_each {A B} (l : list A) (b : B) (body : A -> B -> ST St B) :
  (forall x b, preserves_on proj (body x b)) ->
  preserves_on proj (for_each l b body).
Proof.
  intros Hb. revert b. induction l as [|x l IH]; intros b; simpl.
  - apply preserves_ret.
  - apply preserves_bind; [apply Hb | intros; apply IH].
Qed.

Lemma preserves_call (body : ST St bool) :
  preserves_on proj body -> preserves_on proj (call body).
Proof.
  intros Hb c c' r. unfold call.
  destruct (body c) as [c1 [a|b|e]] eqn:E; intros [= <- _]; eapply Hb; eassumption.
Qed.

Lemma preserves_guard (ok : bool) : preserves_on proj (guard ok).
Proof. destruct ok; [apply preserves_ret | apply preserves_return]. Qed.

Lemma preserves_first {A} (l : list A) : preserves_on proj (first l).
Proof. destruct l; [apply preserves_raise | apply preserves_ret]. Qed.

End PreservesOn.

Lemma preserves_get_gate (k : string) : preserves (get_gate k).
Proof.
  intros c c' r. unfold get_gate.
  destruct (lookup k (gatemap c)); intros [= <- _]; apply grows_refl.
Qed.

Lemma preserves_items : preserves items.
Proof. intros c c' r [= <- _]. apply grows_refl. Qed.

Lemma preserves_bound (o : option Roth) : preserves (bound o).
Proof. destruct o; [apply preserves_ret | apply preserves_raise]. Qed.

(** One step of a preservation proof, by the shape of the statement. *)
Ltac preserves_step :=
  match goal with
  | |- preserves_on _ (bind _ _) => apply preserves_bind; [|intros]
  | |- preserves_on _ (ret _) => apply preserves_ret
  | |- preserves_on _ (return_ _) => apply preserves_return
  | |- preserves_on _ (raise _) => apply preserves_raise
  | |- preserves_on _ (get_gate _) => apply preserves_get_gate
  | |- preserves_on _ items => apply preserves_items
  | |- preserves_on _ (guard _) => apply preserves_guard
  | |- preserves_on _ (first _) => apply preserves_first
  | |- preserves_on _ (bound _) => apply preserves_bound
  | |- preserves_on _ (for_each _ _ _) => apply preserves_for_each; intros
  | |- preserves_on _ (if ?b then _ else _) => destruct b
  | |- preserves_on _ (match ?x with _ => _ end) => destruct x
  | H : forall _, _ |- preserves_on _ _ => apply H
  end.

Ltac preserves_auto := repeat preserves_step.

Lemma preserves_read_fanins (names : list string) : preserves (read_fanins names).
Proof. induction names; simpl; preserves_auto; assumption. Qed.

Lemma preserves_check_output (output stored : Roth) :
  preserves (check_output output stored).
Proof. unfold check_output; preserves_auto. Qed.

Lemma preserves_justify operate (gate_inst : Gate) (stored : Roth) :
  preserves (justify operate gate_inst stored).
Proof.
  unfold justify, justify_and_or, justify_buff_not, justify_xor, justify_xnor.
  preserves_auto;
    auto using preserves_read_fanins, preserves_check_output.
Qed.

Lemma preserves_assign_value (location : string) (faults : list Fault)
    (value : Roth) : preserves (assign_value location faults value).
Proof.
  intros c c' r. unfold assign_value, bind, get_gate.
  destruct (lookup location (gatemap c)) as [g|] eqn:Hl;
    [|intros [= <- _]; apply grows_refl].
  destruct (new_output_of _ _) as [new_output|];
    [|intros [= <- _]; apply grows_refl].
  destruct (Roth_eqb_spec (Gate.value g) Roth.X) as [HX|HX].
  - unfold put_value. intros [= <- _]. repeat split. simpl.
    eapply update_grows; eassumption.
  - intros H. eapply (preserves_guard (fun c => c)); eassumption.
Qed.

Section EnginePreserves.

Variable operate : string -> list Roth -> Roth.
Variable rec : string -> Roth -> Direction -> M bool.
Hypothesis rec_preserves : forall loc v dir, preserves (rec loc v dir).

Lemma preserves_other_paths location loc value output :
  preserves (other_paths operate rec location loc value output).
Proof.
  unfold other_paths. preserves_auto; auto using preserves_read_fanins.
Qed.

Lemma preserves_backward location dict value :
  preserves (backward operate rec location dict value).
Proof.
  unfold backward. preserves_auto; auto using preserves_other_paths.
Qed.

Lemma preserves_scan_gate gate_name gate_inst st :
  preserves (scan_gate gate_name gate_inst st).
Proof. unfold scan_gate. preserves_auto. Qed.

Lemma preserves_d_drive_scan location value :
  preserves (d_drive_scan location value).
Proof.
  unfold d_drive_scan. preserves_auto; auto using preserves_scan_gate.
Qed.

Lemma preserves_forward location gate_inst is_only D_frontiers value :
  preserves (forward operate rec location gate_inst is_only D_frontiers value).
Proof.
  unfold forward. preserves_auto; auto using preserves_read_fanins.
Qed.

Lemma preserves_imply_body location faults value D_drive direction :
  preserves (imply_body operate rec location faults value D_drive direction).
Proof.
  unfold imply_body.
  preserves_auto;
    auto using preserves_assign_value, preserves_justify, preserves_backward,
      preserves_d_drive_scan, preserves_forward.
Qed.

End EnginePreserves.

Lemma preserves_imply_and_check operate fuel faults location value D_drive
    direction :
  preserves (imply_and_check operate fuel faults location value D_drive direction).
Proof.
  revert location value direction.
  induction fuel as [|fuel IH]; intros location value direction; simpl.
  - apply preserves_raise.
  - apply preserves_call, preserves_imply_body. intros; apply IH.
Qed.

(** ** The command loop keeps definite values *)

Lemma preserves_on_circ {A} (m : M A) :
  preserves m -> preserves_on circ (on_circ m).
Proof.
  intros Hm r r' x. unfold on_circ. intros [= <- <-]. simpl.
  eapply Hm. apply surjective_pairing.
Qed.

Lemma preserves_on_ofile {A} (m : Circuit -> ST string A) :
  preserves_on circ (on_ofile m).
Proof. intros r r' x. unfold on_ofile. intros [= <- _]. apply grows_refl. Qed.

Lemma preserves_run_command operate write_state fuel D_drive command :
  preserves_on circ (run_command operate write_state fuel D_drive command).
Proof.
  destruct command; simpl; try apply preserves_on_ofile.
  - intros r r' x [= <- _]. apply grows_refl.
  - intros r r' x H. revert H. apply preserves_bind.
    + apply preserves_on_circ, preserves_imply_and_check.
    + intros []; [apply preserves_ret | apply preserves_raise].
Qed.

Lemma preserves_run_commands operate write_state fuel D_drive commands :
  preserves_on circ (run_commands operate write_state fuel D_drive commands).
Proof.
  unfold run_commands. apply preserves_for_each. intros.
  apply preserves_run_command.
Qed.

(** ** Steps 1 and 2 *)

Lemma scan_step_skips (location : string) (l : list Fault) (v : Roth) :
  Forall (fun f => Fault.stem f <> location) l ->
  fold_left
    (fun fault_value fault =>
       if Fault.stem fault =? location then Fault.value fault else fault_value)
    l v = v.
Proof.
  intros H; revert v; induction H as [|f l Hf _ IH]; intros v; simpl; trivial.
  destruct (String.eqb_spec (Fault.stem f) location); [contradiction | apply IH].
Qed.

Lemma scan_faults_active (faults : list Fault) (location : string) (f : Fault) :
  active_on faults location f -> scan_faults faults location = Fault.value f.
Proof.
  intros (before & after & -> & Hs & Hafter). unfold scan_faults.
  rewrite fold_left_app. simpl.
  destruct (String.eqb_spec (Fault.stem f) location); [|contradiction].
  now apply scan_step_skips.
Qed.

Lemma scan_faults_none (faults : list Fault) (location : string) :
  Forall (fun f => Fault.stem f <> location) faults ->
  scan_faults faults location = Roth.X.
Proof. apply scan_step_skips. Qed.

Lemma bind_norm {St A B} (m : ST St A) (k : A -> ST St B) s s' a :
  m s = (s', Norm a) -> bind m k s = k a s'.
Proof. unfold bind. now intros ->. Qed.

Lemma bind_retn {St A B} (m : ST St A) (k : A -> ST St B) s s' b :
  m s = (s', Retn b) -> bind m k s = (s', Retn b).
Proof. unfold bind. now intros ->. Qed.

Lemma get_gate_some (k : string) (c : Circuit) (g : Gate) :
  lookup k (gatemap c) = Some g -> get_gate k c = (c, Norm g).
Proof. unfold get_gate. now intros ->. Qed.

(** A conflict found in step 1 or 2 ends the call at once. *)
Lemma assign_value_conflict operate fuel faults location value D_drive
    direction c :
  assign_value location faults value c = (c, Retn false) ->
  imply_and_check operate (S fuel) faults location value D_drive direction c
  = (c, Norm false).
Proof.
  intros H. simpl. unfold call, imply_body.
  now rewrite (bind_retn _ _ _ _ _ H).
Qed.

Lemma step1_conflict faults location value c g :
  lookup location (gatemap c) = Some g ->
  effective_value faults location value = None ->
  assign_value location faults value c = (c, Retn false).
Proof.
  intros Hl He. unfold assign_value.
  rewrite (bind_norm _ _ _ _ _ (get_gate_some _ _ _ Hl)).
  unfold effective_value in He. now rewrite He.
Qed.

Lemma step2_conflict faults location value c g v :
  lookup location (gatemap c) = Some g ->
  Gate.value g <> Roth.X ->
  effective_value faults location value = Some v ->
  v <> Gate.value g ->
  assign_value location faults value c = (c, Retn false).
Proof.
  intros Hl Hd He Hv. unfold assign_value.
  rewrite (bind_norm _ _ _ _ _ (get_gate_some _ _ _ Hl)).
  unfold effective_value in He. rewrite He.
  destruct (Roth_eqb_spec (Gate.value g) Roth.X); [contradiction|].
  destruct (Roth_eqb_spec (Gate.value g) v); [congruence | reflexivity].
Qed.

(** On a gate still at X the effective value is stored, and the rest of
    the call runs as if it had been there before. *)
Lemma step2_stores operate fuel faults location value D_drive direction c g v :
  lookup location (gatemap c) = Some g ->
  Gate.value g = Roth.X ->
  effective_value faults location value = Some v ->
  v <> Roth.X ->
  forall c' r,
    imply_and_check operate (S fuel) faults location value D_drive direction c
    = (c', r) ->
    lookup location (gatemap c') = Some (Gate.set_value v g).
Proof.
  intros Hl HX He Hv c' r.
  set (c1 := with_gatemap c (update location (Gate.set_value v) (gatemap c))).
  assert (Hl1 : lookup location (gatemap c1) = Some (Gate.set_value v g)).
  { unfold c1. simpl. now rewrite lookup_update, Hl. }
  assert (H0 : assign_value location faults value c = (c1, Norm tt)).
  { unfold assign_value.
    rewrite (bind_norm _ _ _ _ _ (get_gate_some _ _ _ Hl)).
    unfold effective_value in He. rewrite He, HX. reflexivity. }
  assert (H1 : assign_value location faults value c1 = (c1, Norm tt)).
  { unfold assign_value.
    rewrite (bind_norm _ _ _ _ _ (get_gate_some _ _ _ Hl1)).
    unfold effective_value in He. rewrite He. simpl.
    destruct (Roth_eqb_spec v Roth.X); [contradiction|].
    now rewrite Roth_eqb_refl. }
  assert (E : imply_and_check operate (S fuel) faults location value D_drive
                direction c
              = imply_and_check operate (S fuel) faults location value D_drive
                  direction c1).
  { simpl. unfold call, imply_body.
    now rewrite (bind_norm _ _ _ _ _ H0), (bind_norm _ _ _ _ _ H1). }
  rewrite E. intros Hrun.
  apply preserves_imply_and_check in Hrun.
  apply (grows_keeps_definite _ _ Hrun _ _ Hl1). exact Hv.
Qed.

(** C1.  Step 1 of [imply_and_check] on a gate [location] of the
    circuit.  With an active fault on the line of polarity 0: an
    incoming 1 or D has effective value D, an incoming 0 has effective
    value 0, an incoming D_b makes the call return False.  With polarity
    1: an incoming 0 or D_b has effective value D_b, an incoming 1 has
    effective value 1, an incoming D makes the call return False.
    Without a fault on the line the effective value is the incoming one.
    The effective value is what the call stores on a gate that was X. *)
Theorem fault_absorption operate fuel faults location value D_drive direction
    c g :
  lookup location (gatemap c) = Some g ->
  let run :=
    imply_and_check operate (S fuel) faults location value D_drive direction c in
  (forall f, active_on faults location f -> Fault.value f = Roth.Zero ->
     (value = Roth.One \/ value = Roth.D ->
      effective_value faults location value = Some Roth.D) /\
     (value = Roth.Zero ->
      effective_value faults location value = Some Roth.Zero) /\
     (value = Roth.D_b -> run = (c, Norm false))) /\
  (forall f, active_on faults location f -> Fault.value f = Roth.One ->
     (value = Roth.Zero \/ value = Roth.D_b ->
      effective_value faults location value = Some Roth.D_b) /\
     (value = Roth.One ->
      effective_value faults location value = Some Roth.One) /\
     (value = Roth.D -> run = (c, Norm false))) /\
  (Forall (fun f => Fault.stem f <> location) faults ->
   effective_value faults location value = Some value) /\
  (forall v, effective_value faults location value = Some v ->
     Gate.value g = Roth.X -> v <> Roth.X ->
     lookup location (gatemap (fst run)) = Some (Gate.set_value v g)).
Proof.
  intros Hl run. unfold effective_value.
  split; [|split; [|split]].
  - intros f Ha Hv. rewrite (scan_faults_active _ _ _ Ha), Hv.
    split; [|split].
    + now intros [-> | ->].
    + now intros ->.
    + intros ->. apply assign_value_conflict.
      eapply step1_conflict; [eassumption|]. unfold effective_value.
      now rewrite (scan_faults_active _ _ _ Ha), Hv.
  - intros f Ha Hv. rewrite (scan_faults_active _ _ _ Ha), Hv.
    split; [|split].
    + now intros [-> | ->].
    + now intros ->.
    + intros ->. apply assign_value_conflict.
      eapply step1_conflict; [eassumption|]. unfold effective_value.
      now rewrite (scan_faults_active _ _ _ Ha), Hv.
  - intros Hn. now rewrite (scan_faults_none _ _ Hn).
  - intros v He HX Hv.
    eapply step2_stores; try eassumption. apply surjective_pairing.
Qed.

(** C10.  Implying X on a gate that already holds a definite value
    returns False, whatever the active faults: the effective value is X,
    which differs from the stored value, and the circuit is left as it
    was. *)
Theorem imply_X_on_definite_gate operate fuel faults location D_drive
    direction c g :
  lookup location (gatemap c) = Some g ->
  Gate.value g <> Roth.X ->
  effective_value faults location Roth.X = Some Roth.X /\
  imply_and_check operate (S fuel) faults location Roth.X D_drive direction c
  = (c, Norm false).
Proof.
  intros Hl Hd.
  assert (He : effective_value faults location Roth.X = Some Roth.X).
  { unfold effective_value. now destruct (scan_faults faults location). }
  split; [exact He|].
  apply assign_value_conflict.
  eapply step2_conflict; eauto.
Qed.

(** C7.  A gate holding a definite value is found unchanged after any
    call of [imply_and_check], whatever the call returns, and after any
    run of the command loop; a call whose effective value differs from
    the definite value stored on its gate returns False and changes
    nothing. *)
Theorem definite_values_stay :
  (forall operate fuel faults location value D_drive direction c c' r,
     imply_and_check operate fuel faults location value D_drive direction c
     = (c', r) ->
     keeps_definite c c') /\
  (forall operate fuel faults location value D_drive direction c g v,
     lookup location (gatemap c) = Some g ->
     Gate.value g <> Roth.X ->
     effective_value faults location value = Some v ->
     v <> Gate.value g ->
     imply_and_check operate (S fuel) faults location value D_drive direction c
     = (c, Norm false)) /\
  (forall operate write_state fuel D_drive commands r r' x,
     run_commands operate write_state fuel D_drive commands r = (r', x) ->
     keeps_definite (circ r) (circ r')).
Proof.
  repeat split.
  - intros. apply grows_keeps_definite.
    eapply preserves_imply_and_check; eassumption.
  - intros. apply assign_value_conflict. eapply step2_conflict; eassumption.
  - intros. apply grows_keeps_definite.
    eapply preserves_run_commands; eassumption.
Qed.

(** ** The listings of the collapser *)

Lemma FaultClass_induction (P : FaultClass -> Prop) :
  (forall r a d, Forall P d -> P (mkFaultClass r a d)) ->
  forall fc, P fc.
Proof.
  intros H. fix IH 1. intros [r a d]. apply H.
  induction d as [|x d IHd]; constructor; [apply IH | exact IHd].
Qed.

Lemma fold_leaves_app (ds : list FaultClass) :
  Forall (fun d => forall acc,
            find_no_dominant_faults_in_faultclass d acc = (acc ++ leaves d)%list) ds ->
  forall acc,
    fold_left (fun acc d => find_no_dominant_faults_in_faultclass d acc) ds acc
    = (acc ++ flat_map leaves ds)%list.
Proof.
  induction 1 as [|d ds Hd _ IH]; intros acc; simpl.
  - now rewrite app_nil_r.
  - now rewrite Hd, IH, app_assoc.
Qed.

Lemma leaves_app (fc : FaultClass) (acc : list FaultClass) :
  find_no_dominant_faults_in_faultclass fc acc = (acc ++ leaves fc)%list.
Proof.
  revert acc. induction fc as [r a d IH] using FaultClass_induction.
  intros acc. unfold leaves. simpl.
  destruct (length d =? 0)%nat; [reflexivity|].
  now rewrite !(fold_leaves_app d IH).
Qed.

Lemma find_no_dominant_faults_leaves (collapsed acc : list FaultClass) :
  find_no_dominant_faults collapsed acc = (acc ++ flat_map leaves collapsed)%list.
Proof.
  unfold find_no_dominant_faults. apply fold_leaves_app.
  apply Forall_forall. intros; apply leaves_app.
Qed.

Lemma leaves_node (r : Fault) (a : list Fault) (d : list FaultClass) :
  leaves (mkFaultClass r a d)
  = if (length d =? 0)%nat then [mkFaultClass r a d] else flat_map leaves d.
Proof.
  unfold leaves at 1. simpl. destruct (length d =? 0)%nat; [reflexivity|].
  rewrite (fold_leaves_app d); [reflexivity|].
  apply Forall_forall. intros; apply leaves_app.
Qed.

Lemma for_classes_appends_leaves (circ : Circuit) (ds : list FaultClass) :
  Forall (appends_leaves circ) ds ->
  forall acc acc',
    for_classes (find_no_dominant_faults_check_points_in_faultclass circ) ds acc
    = Ok acc' ->
    exists extra, acc' = (acc ++ extra)%list /\ incl extra (flat_map leaves ds).
Proof.
  induction 1 as [|d ds Hd _ IH]; intros acc acc'; simpl.
  - intros [= <-]. exists []. split; [now rewrite app_nil_r | apply incl_refl].
  - destruct (find_no_dominant_faults_check_points_in_faultclass circ d acc)
      as [acc1|e] eqn:E; [|discriminate].
    intros H. destruct (Hd _ _ E) as (x1 & -> & I1).
    destruct (IH _ _ H) as (x2 & -> & I2).
    exists (x1 ++ x2)%list. split; [now rewrite app_assoc|].
    apply incl_app; [now apply incl_appl | now apply incl_appr].
Qed.

Lemma check_points_append_leaves (circ : Circuit) (fc : FaultClass) :
  appends_leaves circ fc.
Proof.
  induction fc as [r a d IH] using FaultClass_induction.
  intros acc acc'. rewrite leaves_node. simpl.
  destruct d as [|d0 d]; simpl.
  - destruct (is_check_point circ r) as [[|]|e]; try discriminate.
    + intros [= <-]. exists [mkFaultClass r a []]. split; [reflexivity|].
      apply incl_refl.
    + intros [= <-]. exists []. split; [now rewrite app_nil_r|].
      apply incl_nil_l.
  - intros H.
    apply (for_classes_appends_leaves circ (d0 :: d) IH acc acc' H).
Qed.

Lemma analysis_spec (normal check_points : list FaultClass) (f : Fault) :
  In f (analysis normal check_points) <->
  In f (listed normal) /\ ~ In f (listed check_points).
Proof.
  unfold analysis, listed. rewrite !in_map_iff. split.
  - intros (fc & <- & Hin). apply filter_In in Hin as [Hin Hno]. split.
    + now exists fc.
    + intros (fc' & Hr & Hin'). apply negb_true_iff in Hno.
      assert (Hex : existsb
                (fun fcs_check_points =>
                   Fault.eqb (representative fcs_check_points) (representative fc))
                check_points = true).
      { apply existsb_exists. exists fc'. split; [exact Hin'|].
        rewrite Hr. now destruct (Fault_eqb_spec (representative fc) (representative fc)). }
      congruence.
  - intros [(fc & <- & Hin) Hno]. exists fc. split; [reflexivity|].
    apply filter_In. split; [exact Hin|]. apply negb_true_iff.
    destruct (existsb _ check_points) eqn:E; [|reflexivity].
    exfalso. apply Hno. apply existsb_exists in E as (fc' & Hin' & Heq).
    exists fc'. split; [|exact Hin'].
    now destruct (Fault_eqb_spec (representative fc') (representative fc)).
Qed.

Lemma for_classes_total (circ : Circuit) (ds : list FaultClass) :
  Forall (fun d => Forall (testable circ) (leaves d) ->
            forall acc, exists acc',
              find_no_dominant_faults_check_points_in_faultclass circ d acc
              = Ok acc') ds ->
  Forall (testable circ) (flat_map leaves ds) ->
  forall acc, exists acc',
    for_classes (find_no_dominant_faults_check_points_in_faultclass circ) ds acc
    = Ok acc'.
Proof.
  induction 1 as [|d ds Hd _ IH]; intros Ht acc; simpl.
  - now exists acc.
  - simpl in Ht. apply Forall_app in Ht as [Ht1 Ht2].
    destruct (Hd Ht1 acc) as (acc1 & ->). now apply IH.
Qed.

Lemma check_points_total (circ : Circuit) (fc : FaultClass) :
  Forall (testable circ) (leaves fc) ->
  forall acc, exists acc',
    find_no_dominant_faults_check_points_in_faultclass circ fc acc = Ok acc'.
Proof.
  induction fc as [r a d IH] using FaultClass_induction.
  rewrite leaves_node. destruct d as [|d0 d]; simpl; intros Ht acc.
  - apply Forall_inv in Ht as (b & Hb). simpl in Hb. rewrite Hb.
    destruct b; eauto.
  - now apply (for_classes_total circ (d0 :: d) IH).
Qed.

(** C8.  When the checkpoint test can be made on every class without
    dominated classes, the listings are produced; every fault listed in
    [.not_dominating_checkpoint] is listed in [.not_dominating], and the
    faults listed in [.analysis] are exactly those listed in
    [.not_dominating] and not in [.not_dominating_checkpoint]. *)
Theorem checkpoint_listing_subset circ collapsed :
  Forall (testable circ) (flat_map leaves collapsed) ->
  exists l,
    listings circ collapsed = Ok l /\
    incl (not_dominating_checkpoint l) (not_dominating l) /\
    (forall f, In f (analysis_report l) <->
               In f (not_dominating l) /\ ~ In f (not_dominating_checkpoint l)).
Proof.
  intros Ht. unfold listings, find_no_dominant_faults_check_points.
  destruct (for_classes_total circ collapsed) with (acc := @nil FaultClass)
    as (cps & E); [|exact Ht|].
  { apply Forall_forall. intros; now apply check_points_total. }
  rewrite E. eexists; split; [reflexivity|]. simpl.
  split; [|intros f; apply analysis_spec].
  apply for_classes_appends_leaves in E as (extra & -> & Hincl).
  - rewrite find_no_dominant_faults_leaves. simpl.
    unfold listed. now apply incl_map.
  - apply Forall_forall. intros; apply check_points_append_leaves.
Qed.

(** ** The collapser and the table *)

Lemma fanin_faults_spec circ gate_name fi_name is_branch fi_gate_name fi_sa0 fi_sa1 :
  fanin_faults circ gate_name fi_name = Ok (is_branch, fi_gate_name, fi_sa0, fi_sa1) ->
  exists fi_gate_inst,
    lookup fi_name (gatemap circ) = Some fi_gate_inst /\
    fi_gate_name = Gate.name fi_gate_inst /\
    (is_branch = true <-> 1 < length (Gate.fanout fi_gate_inst)) /\
    fi_sa0 = Fault.mk Roth.Zero fi_gate_name
               (if is_branch then Some gate_name else None) /\
    fi_sa1 = Fault.mk Roth.One fi_gate_name
               (if is_branch then Some gate_name else None).
Proof.
  unfold fanin_faults.
  destruct (lookup fi_name (gatemap circ)) as [g|]; [|discriminate].
  destruct (Nat.eqb_spec (length (Gate.fanout g)) 1) as [E|E].
  - intros [= <- <- <- <-]. exists g. repeat split; try discriminate. lia.
  - destruct (existsb _ (Gate.fanout g)) eqn:Hex; [|discriminate].
    intros [= <- <- <- <-]. exists g. repeat split.
    apply existsb_exists in Hex as (x & Hin & _).
    destruct (Gate.fanout g) as [|y [|z l]]; simpl in *; try lia; tauto.
Qed.

Ltac name_gate_type :=
  repeat match goal with
         | H : context [String.eqb ?s ?t] |- _ =>
             destruct (String.eqb_spec s t) as [->|]
         end.

(** C2.  A stem fault on a gate that is not an INPUT is collapsed over
    the fan-ins of the gate; for AND, NAND, OR, NOR, NOT and BUFF each
    fan-in is treated as the table of section 4.2 says: an equivalent
    fan-in fault is added to the owner's equivalent list and the
    recursion goes on with the same owner, a dominated one gets a fresh
    class attached to the owner's dominated list and the recursion goes
    on with that class as owner.  For G = NAND(A, B) with output G the
    collapser returns the SA0 root with equivalents G/0 and dominated
    children A/1 and B/1, and the SA1 root with equivalents G/1, A/0,
    B/0. *)
Theorem collapse_follows_table :
  (forall fuel circ flt fc top gate_inst,
     Fault.is_branch flt = false ->
     Fault.stem flt <> EmptyString ->
     lookup (Fault.stem flt) (gatemap circ) = Some gate_inst ->
     Gate.gatetype gate_inst <> "INPUT" ->
     collapse_fault (S fuel) circ flt fc top
     = collapse_fanins (collapse_fault fuel circ) circ (Fault.value flt)
         (Gate.gatetype gate_inst) (Fault.stem flt) (Gate.fanin gate_inst)
         (mkCollapsed fc top [])) /\
  (forall rec circ output_fault gate_type gate_name fi_name st relation polarity
          is_branch fi_gate_name fi_sa0 fi_sa1,
     table gate_type output_fault = Some (relation, polarity) ->
     fanin_faults circ gate_name fi_name
     = Ok (is_branch, fi_gate_name, fi_sa0, fi_sa1) ->
     Fault.value (fanin_fault polarity fi_sa0 fi_sa1) = polarity /\
     Fault.stem (fanin_fault polarity fi_sa0 fi_sa1) = fi_gate_name /\
     collapse_fanin rec circ output_fault gate_type gate_name fi_name st
     = prescribed rec relation (fanin_fault polarity fi_sa0 fi_sa1) st) /\
  (forall pick steps fuel,
     1 <= steps -> 2 <= fuel ->
     collapse_circuit pick steps fuel nand_circuit
     = Ok [mkFaultClass (Fault.mk Roth.Zero "G" None) []
             [mkFaultClass (Fault.mk Roth.One "A" None) [] [];
              mkFaultClass (Fault.mk Roth.One "B" None) [] []];
           mkFaultClass (Fault.mk Roth.One "G" None)
             [Fault.mk Roth.Zero "A" None; Fault.mk Roth.Zero "B" None] []]).
Proof.
  split; [|split].
  - intros fuel circ flt fc top gate_inst Hb Hs Hl Ht. simpl.
    rewrite Hb, Hl. simpl.
    destruct (String.eqb_spec (Fault.stem flt) EmptyString); [contradiction|].
    destruct (String.eqb_spec (Gate.gatetype gate_inst) "INPUT");
      [contradiction | reflexivity].
  - intros rec circ output_fault gate_type gate_name fi_name st relation
      polarity is_branch fi_gate_name fi_sa0 fi_sa1 Ht Hf.
    destruct (fanin_faults_spec _ _ _ _ _ _ _ Hf) as (g & _ & _ & _ & -> & ->).
    unfold collapse_fanin. rewrite Hf. unfold table in Ht.
    destruct output_fault; try discriminate; name_gate_type;
      try discriminate; injection Ht as <- <-; simpl;
      unfold as_equivalent, as_dominated, prescribed, add_equivalent,
        add_dominated, new_class;
      destruct (fltclass st); auto.
  - intros pick steps fuel Hs Hf.
    destruct steps as [|steps]; [lia|].
    destruct fuel as [|[|fuel]]; try lia.
    unfold collapse_circuit. cbn -[Nat.modulo collapse_root].
    rewrite Nat.mod_1_r. cbn. destruct steps; reflexivity.
Qed.

(** ** XOR and XNOR gates in the collapser *)

Lemma xor_fanins_sa0 rec circ gate_type gate_name fanins rs :
  gate_type = "XOR" \/ gate_type = "XNOR" ->
  Forall2 (fun fi r => fanin_faults circ gate_name fi = Ok r) fanins rs ->
  forall st,
    collapse_fanins rec circ Roth.Zero gate_type gate_name fanins st
    = Ok (mkCollapsed (fltclass st) (top_fcs st ++ promoted rs)
            (fin_list st ++ handed_back rs)).
Proof.
  intros Ht H. induction H as [|fi [[[b n] f0] f1] fanins rs Hf _ IH];
    intros st; simpl.
  - rewrite !app_nil_r. now destruct st.
  - unfold collapse_fanin. rewrite Hf.
    destruct Ht as [-> | ->]; simpl; unfold promote; rewrite IH; simpl;
      destruct b; simpl; rewrite <- ?app_assoc; reflexivity.
Qed.

Lemma xor_fanins_sa1 rec circ gate_type gate_name fanins rs :
  gate_type = "XOR" \/ gate_type = "XNOR" ->
  Forall2 (fun fi r => fanin_faults circ gate_name fi = Ok r) fanins rs ->
  forall st,
    collapse_fanins rec circ Roth.One gate_type gate_name fanins st = Ok st.
Proof.
  intros Ht H. induction H as [|fi [[[b n] f0] f1] fanins rs Hf _ IH];
    intros st; simpl; [reflexivity|].
  unfold collapse_fanin. rewrite Hf.
  destruct Ht as [-> | ->]; simpl; apply IH.
Qed.

(** C6, as the code has it.  On an XOR or XNOR gate whose fan-in faults
    [rs] can all be built, the stuck-at-0 output fault adds nothing to
    its class, appends fresh classes for the SA0 and SA1 faults of every
    branch fan-in (a fan-in whose driver has more than one fan-out) to
    the top-level list and returns the name of every fan-in; the
    stuck-at-1 output fault adds nothing, appends nothing and returns no
    name. *)
Theorem xor_collapse fuel circ flt fc top gate_inst rs :
  Fault.is_branch flt = false ->
  Fault.stem flt <> EmptyString ->
  lookup (Fault.stem flt) (gatemap circ) = Some gate_inst ->
  Gate.gatetype gate_inst = "XOR" \/ Gate.gatetype gate_inst = "XNOR" ->
  Forall2 (fun fi r => fanin_faults circ (Fault.stem flt) fi = Ok r)
    (Gate.fanin gate_inst) rs ->
  (Fault.value flt = Roth.Zero ->
   collapse_fault (S fuel) circ flt fc top
   = Ok (mkCollapsed fc (top ++ promoted rs) (handed_back rs))) /\
  (Fault.value flt = Roth.One ->
   collapse_fault (S fuel) circ flt fc top = Ok (mkCollapsed fc top [])) /\
  Forall2 (fun fi r => is_branch_of circ (Fault.stem flt) fi r)
    (Gate.fanin gate_inst) rs.
Proof.
  intros Hb Hs Hl Ht Hrs.
  assert (E : collapse_fault (S fuel) circ flt fc top
              = collapse_fanins (collapse_fault fuel circ) circ (Fault.value flt)
                  (Gate.gatetype gate_inst) (Fault.stem flt)
                  (Gate.fanin gate_inst) (mkCollapsed fc top [])).
  { simpl. rewrite Hb, Hl. simpl.
    destruct (String.eqb_spec (Fault.stem flt) EmptyString); [contradiction|].
    destruct Ht as [-> | ->]; reflexivity. }
  rewrite E. split; [|split].
  - intros ->. now rewrite (xor_fanins_sa0 _ _ _ _ _ _ Ht Hrs).
  - intros ->. now rewrite (xor_fanins_sa1 _ _ _ _ _ _ Ht Hrs).
  - eapply Forall2_impl; [|exact Hrs].
    intros fi [[[b n] f0] f1] Hf. unfold is_branch_of.
    destruct (fanin_faults_spec _ _ _ _ _ _ _ Hf) as (g & Hg & -> & Hbr & -> & ->).
    exists g. repeat split; try assumption; apply Hbr.
Qed.

(** For the stuck-at-1 fault on u = XOR(s, x) no class is promoted and
    no name is returned, although s is a branch fan-in. *)
Lemma xor_sa1_promotes_nothing :
  Forall2 (fun fi r => fanin_faults xor_branch_circuit "u" fi = Ok r)
    ["s"; "x"] u_fanin_faults /\
  collapse_fault 4 xor_branch_circuit (Fault.mk Roth.One "u" None)
    (new_class (Fault.mk Roth.One "u" None)) []
  <> Ok (mkCollapsed (new_class (Fault.mk Roth.One "u" None))
           ([] ++ promoted u_fanin_faults) (handed_back u_fanin_faults)).
Proof.
  split; [repeat constructor|]. vm_compute. discriminate.
Qed.

Lemma xor_collapse_witness :
  collapse_fault 4 xor_branch_circuit (Fault.mk Roth.Zero "u" None)
    (new_class (Fault.mk Roth.Zero "u" None)) []
  = Ok (mkCollapsed (new_class (Fault.mk Roth.Zero "u" None))
          [new_class (Fault.mk Roth.Zero "s" (Some "u"));
           new_class (Fault.mk Roth.One "s" (Some "u"))]
          ["s"; "x"]).
Proof.
  refine (proj1 (xor_collapse 3 xor_branch_circuit (Fault.mk Roth.Zero "u" None)
                   (new_class (Fault.mk Roth.Zero "u" None)) []
                   (snd (gate "u" "XOR" ["s"; "x"] [])) u_fanin_faults
                   eq_refl _ eq_refl (or_introl eq_refl) _) eq_refl).
  - discriminate.
  - repeat constructor.
Defined.

(** ** The engine on small circuits *)

(** C3.  Unique D-drive with [-u], a fault on the last fan-in of g and
    an Imply of the opposite value on that line.  On g = OR(a, b) the
    other fan-in a is forced to 0; on g = NOR(a, b) it is left at X, the
    gate type being compared with "NNOR".  On g = AND(a, b, d) with the
    fault effect on d, a and b are forced to 1; on g = AND(d, a, b) they
    are left at X, g being listed once for every fan-in read after d. *)
Theorem unique_d_drive_on_examples :
  outcome (run_script true (two_input "OR")
             [Command.Fault "b" Roth.One; Command.Imply "b" Roth.Zero])
  = ([("a", Roth.Zero); ("b", Roth.D_b); ("g", Roth.D_b)], EmptyString, Norm tt) /\
  outcome (run_script true (two_input "NOR")
             [Command.Fault "b" Roth.One; Command.Imply "b" Roth.Zero])
  = ([("a", Roth.X); ("b", Roth.D_b); ("g", Roth.X)], EmptyString, Norm tt) /\
  outcome (run_script true and3_last
             [Command.Fault "d" Roth.Zero; Command.Imply "d" Roth.One])
  = ([("a", Roth.One); ("b", Roth.One); ("d", Roth.D); ("g", Roth.D)],
     EmptyString, Norm tt) /\
  outcome (run_script true and3_first
             [Command.Fault "d" Roth.Zero; Command.Imply "d" Roth.One])
  = ([("a", Roth.X); ("b", Roth.X); ("d", Roth.D); ("g", Roth.X)],
     EmptyString, Norm tt).
Proof. repeat split; vm_compute; reflexivity. Qed.

(** C4.  Forward propagation on g = AND(a, b) holding 0: Imply a = 1
    evaluates g to X and implies on g the value of a, which is 1, not
    the 0 that g holds, and the script ends in a conflict.  On
    g = BUFF(a) with the fault a/0, Imply a = 1 stores D on a, evaluates
    g from the incoming 1 and ends in a conflict as well. *)
Theorem forward_propagation_on_examples :
  outcome (run_script false (two_input "AND")
             [Command.Imply "g" Roth.Zero; Command.Imply "a" Roth.One])
  = ([("a", Roth.One); ("b", Roth.X); ("g", Roth.Zero)], EmptyString, Raise SystemExit) /\
  outcome (run_script false buff_circuit
             [Command.Fault "a" Roth.Zero; Command.Imply "a" Roth.One])
  = ([("a", Roth.D); ("g", Roth.One)], EmptyString, Raise SystemExit).
Proof. repeat split; vm_compute; reflexivity. Qed.

(** C5.  Backward justification of g = XNOR(a, b) with a = 1 and b at X:
    Imply g = 1 leaves b at X, and Imply g = 0 forces b to 1, so that g
    holds 0 over the fan-ins 1 and 1.  On g = XOR(a, b) the same scripts
    force b to 0, resp. to 1. *)
Theorem xnor_justification_on_examples :
  outcome (run_script false (two_input "XNOR")
             [Command.Imply "a" Roth.One; Command.Imply "g" Roth.One])
  = ([("a", Roth.One); ("b", Roth.X); ("g", Roth.One)], EmptyString, Norm tt) /\
  outcome (run_script false (two_input "XNOR")
             [Command.Imply "a" Roth.One; Command.Imply "g" Roth.Zero])
  = ([("a", Roth.One); ("b", Roth.One); ("g", Roth.Zero)], EmptyString, Norm tt) /\
  outcome (run_script false (two_input "XOR")
             [Command.Imply "a" Roth.One; Command.Imply "g" Roth.One])
  = ([("a", Roth.One); ("b", Roth.Zero); ("g", Roth.One)], EmptyString, Norm tt) /\
  outcome (run_script false (two_input "XOR")
             [Command.Imply "a" Roth.One; Command.Imply "g" Roth.Zero])
  = ([("a", Roth.One); ("b", Roth.One); ("g", Roth.Zero)], EmptyString, Norm tt).
Proof. repeat split; vm_compute; reflexivity. Qed.

(** C9.  The Xpath command on g = AND(a, b, d) with the fault effect D
    on d: the section is the header and the line of g, and no closing
    [$] line; the Dfront command closes its section.  Without a gate to
    report, the Xpath section is the header, the [$] line and a blank
    line. *)
Theorem xpath_section_on_examples :
  outcome (run_script false and3_last
             [Command.Fault "d" Roth.Zero; Command.Imply "d" Roth.One;
              Command.Xpath])
  = ([("a", Roth.X); ("b", Roth.X); ("d", Roth.D); ("g", Roth.X)],
     "X-PATH" ++ nl ++ "g" ++ nl, Norm tt) /\
  outcome (run_script false and3_last
             [Command.Fault "d" Roth.Zero; Command.Imply "d" Roth.One;
              Command.Dfront])
  = ([("a", Roth.X); ("b", Roth.X); ("d", Roth.D); ("g", Roth.X)],
     "D-Frontier" ++ nl ++ "g" ++ nl ++ "$" ++ nl ++ nl, Norm tt) /\
  outcome (run_script false and3_last [Command.Xpath])
  = ([("a", Roth.X); ("b", Roth.X); ("d", Roth.X); ("g", Roth.X)],
     "X-PATH" ++ nl ++ "$" ++ nl ++ nl, Norm tt).
Proof. repeat split; vm_compute; reflexivity. Qed.

(** ** The general statements at concrete inputs *)

Lemma fault_absorption_witness :
  effective_value [Fault.mk Roth.Zero "g" None] "g" Roth.One = Some Roth.D.
Proof.
  refine (proj1 (proj1 (fault_absorption Roth.operate 0
                          [Fault.mk Roth.Zero "g" None] "g" Roth.One false BOTH
                          (two_input "AND") (snd (gate "g" "AND" ["a"; "b"] []))
                          eq_refl)
                   (Fault.mk Roth.Zero "g" None) _ eq_refl)
            (or_introl eq_refl)).
  exists [], []. repeat split. constructor.
Defined.

Lemma imply_X_on_definite_gate_witness :
  imply_and_check Roth.operate 1 [] "d" Roth.X false BOTH d_holds_D
  = (d_holds_D, Norm false).
Proof.
  refine (proj2 (imply_X_on_definite_gate Roth.operate 0 [] "d" false BOTH
                   d_holds_D (snd (with_value Roth.D (gate "d" "INPUT" [] ["g"])))
                   eq_refl _)).
  discriminate.
Defined.

Lemma definite_values_stay_witness :
  keeps_definite d_holds_D
    (fst (imply_and_check Roth.operate 8 [] "a" Roth.One false BOTH d_holds_D)).
Proof.
  refine (proj1 definite_values_stay Roth.operate 8 [] "a" Roth.One false BOTH
            d_holds_D _ _ _).
  apply surjective_pairing.
Defined.

Lemma collapse_follows_table_witness :
  collapse_circuit (fun _ => 0) 1 2 nand_circuit
  = Ok [mkFaultClass (Fault.mk Roth.Zero "G" None) []
          [mkFaultClass (Fault.mk Roth.One "A" None) [] [];
           mkFaultClass (Fault.mk Roth.One "B" None) [] []];
        mkFaultClass (Fault.mk Roth.One "G" None)
          [Fault.mk Roth.Zero "A" None; Fault.mk Roth.Zero "B" None] []].
Proof.
  refine (proj2 (proj2 collapse_follows_table) (fun _ => 0) 1 2 _ _); lia.
Defined.

Lemma checkpoint_listing_subset_witness :
  exists l,
    listings nand_circuit nand_forest = Ok l /\
    incl (not_dominating_checkpoint l) (not_dominating l) /\
    (forall f, In f (analysis_report l) <->
               In f (not_dominating l) /\ ~ In f (not_dominating_checkpoint l)).
Proof.
  refine (checkpoint_listing_subset nand_circuit nand_forest _).
  repeat constructor; eexists; reflexivity.
Defined.

(* ================================================================== *)
(** * Further properties of the code *)

(** ** Statements and the relations they keep *)

Section Keeps.

Context {St : Type} (R : St -> St -> Prop).
Hypothesis R_refl : forall s, R s s.
Hypothesis R_trans : forall s1 s2 s3, R s1 s2 -> R s2 s3 -> R s1 s3.

Lemma keeps_ret {A} (a : A) : keeps R (ret a).
Proof. intros s s' r [= <- _]. apply R_refl. Qed.

Lemma keeps_return {A} (b : bool) : keeps R (@return_ St A b).
Proof. intros s s' r [= <- _]. apply R_refl. Qed.

Lemma keeps_raise {A} (e : exn) : keeps R (@raise St A e).
Proof. intros s s' r [= <- _]. apply R_refl. Qed.

Lemma keeps_bind {A B} (m : ST St A) (k : A -> ST St B) :
  keeps R m -> (forall a, keeps R (k a)) -> keeps R (bind m k).
Proof.
  intros Hm Hk s s' r. unfold bind.
  destruct (m s) as [s1 [a|b|e]] eqn:E; intros H.
  - eapply R_trans; [eapply Hm; eassumption | eapply Hk; eassumption].
  - injection H as <- _. eapply Hm; eassumption.
  - injection H as <- _. eapply Hm; eassumption.
Qed.

Lemma keeps_for_each {A B} (l : list A) (b : B) (body : A -> B -> ST St B) :
  (forall x b, keeps R (body x b)) -> keeps R (for_each l b body).
Proof.
  intros Hb. revert b. induction l as [|x l IH]; intros b; simpl.
  - apply keeps_ret.
  - apply keeps_bind; [apply Hb | intros; apply IH].
Qed.

Lemma keeps_call (body : ST St bool) : keeps R body -> keeps R (call body).
Proof.
  intros Hb s s' r. unfold call.
  destruct (body s) as [s1 [a|b|e]] eqn:E; intros [= <- _]; eapply Hb; eassumption.
Qed.

Lemma keeps_proc (body : ST St unit) : keeps R body -> keeps R (proc body).
Proof.
  intros Hb s s' r. unfold proc.
  destruct (body s) as [s1 [a|b|e]] eqn:E; intros [= <- _]; eapply Hb; eassumption.
Qed.

Lemma keeps_guard (ok : bool) : keeps R (guard ok).
Proof. destruct ok; [apply keeps_ret | apply keeps_return]. Qed.

Lemma keeps_first {A} (l : list A) : keeps R (first l).
Proof. destruct l; [apply keeps_raise | apply keeps_ret]. Qed.

Lemma keeps_gate_of (circuit : Circuit) (k : string) :
  keeps R (gate_of circuit k).
Proof.
  unfold gate_of. destruct (lookup k (gatemap circuit));
    [apply keeps_ret | apply keeps_raise].
Qed.

End Keeps.

(** One step of such a proof, by the shape of the statement; [tac]
    closes the statements that write. *)
Ltac keeps_step :=
  match goal with
  | |- keeps _ (bind _ _) => apply keeps_bind; [assumption| |intros]
  | |- keeps _ (ret _) => apply keeps_ret; assumption
  | |- keeps _ (return_ _) => apply keeps_return; assumption
  | |- keeps _ (raise _) => apply keeps_raise; assumption
  | |- keeps _ (guard _) => apply keeps_guard; assumption
  | |- keeps _ (first _) => apply keeps_first; assumption
  | |- keeps _ (gate_of _ _) => apply keeps_gate_of; assumption
  | |- keeps _ (for_each _ _ _) => apply keeps_for_each; [assumption|assumption|intros]
  | |- keeps _ (call _) => apply keeps_call
  | |- keeps _ (proc _) => apply keeps_proc
  | |- keeps _ (if ?b then _ else _) => destruct b
  | |- keeps _ (match ?x with _ => _ end) => destruct x
  | H : forall _, _ |- keeps _ _ => apply H
  end.

Ltac keeps_auto := repeat keeps_step.

(** ** The engine writes gate values in step 2 only *)

Section EngineKeeps.

Variable R : Circuit -> Circuit -> Prop.
Hypothesis R_refl : forall s, R s s.
Hypothesis R_trans : forall s1 s2 s3, R s1 s2 -> R s2 s3 -> R s1 s3.
Variable operate : string -> list Roth -> Roth.
Variable faults : list Fault.
Hypothesis assign_value_keeps :
  forall location value, keeps R (assign_value location faults value).

Lemma keeps_get_gate (k : string) : keeps R (get_gate k).
Proof.
  intros c c' r. unfold get_gate.
  destruct (lookup k (gatemap c)); intros [= <- _]; apply R_refl.
Qed.

Lemma keeps_items : keeps R items.
Proof. intros c c' r [= <- _]. apply R_refl. Qed.

Lemma keeps_bound (o : option Roth) : keeps R (bound o).
Proof. destruct o; [now apply keeps_ret | now apply keeps_raise]. Qed.

Lemma keeps_read_fanins (names : list string) : keeps R (read_fanins names).
Proof.
  induction names; simpl; keeps_auto; auto using keeps_get_gate.
Qed.

Lemma keeps_check_output (output stored : Roth) :
  keeps R (check_output output stored).
Proof. unfold check_output; keeps_auto. Qed.

Lemma keeps_justify (gate_inst : Gate) (stored : Roth) :
  keeps R (justify operate gate_inst stored).
Proof.
  unfold justify, justify_and_or, justify_buff_not, justify_xor, justify_xnor.
  keeps_auto;
    auto using keeps_read_fanins, keeps_check_output, keeps_get_gate.
Qed.

Section Body.

Variable rec : string -> Roth -> Direction -> M bool.
Hypothesis rec_keeps : forall loc v dir, keeps R (rec loc v dir).

Lemma keeps_other_paths location loc value output :
  keeps R (other_paths operate rec location loc value output).
Proof.
  unfold other_paths.
  keeps_auto; auto using keeps_read_fanins, keeps_get_gate, keeps_bound.
Qed.

Lemma keeps_backward location dict value :
  keeps R (backward operate rec location dict value).
Proof. unfold backward. keeps_auto; auto using keeps_other_paths. Qed.

Lemma keeps_scan_gate gate_name gate_inst st :
  keeps R (scan_gate gate_name gate_inst st).
Proof. unfold scan_gate. keeps_auto; auto using keeps_get_gate. Qed.

Lemma keeps_d_drive_scan location value :
  keeps R (d_drive_scan location value).
Proof.
  unfold d_drive_scan.
  keeps_auto; auto using keeps_scan_gate, keeps_items, keeps_get_gate.
Qed.

Lemma keeps_forward location gate_inst is_only D_frontiers value :
  keeps R (forward operate rec location gate_inst is_only D_frontiers value).
Proof.
  unfold forward. keeps_auto; auto using keeps_read_fanins, keeps_get_gate.
Qed.

Lemma keeps_imply_body location value D_drive direction :
  keeps R (imply_body operate rec location faults value D_drive direction).
Proof.
  unfold imply_body.
  keeps_auto;
    auto using keeps_justify, keeps_backward, keeps_d_drive_scan,
      keeps_forward, keeps_get_gate.
Qed.

End Body.

Lemma keeps_imply_and_check fuel location value D_drive direction :
  keeps R (imply_and_check operate fuel faults location value D_drive direction).
Proof.
  revert location value direction.
  induction fuel as [|fuel IH]; intros location value direction; simpl.
  - now apply keeps_raise.
  - apply keeps_call; trivial. apply keeps_imply_body. intros; apply IH.
Qed.

End EngineKeeps.

(** ** What a call cannot change *)

Lemma grows_same_wiring (c c' : Circuit) : grows c c' -> same_wiring c c'.
Proof.
  intros (Hi & Ho & H). repeat split; trivial.
  - induction H as [|e e' m m' He _ IH]; simpl; [reflexivity|].
    rewrite IH. now destruct He as [-> | [_ [v ->]]].
  - induction H as [|e e' m m' He _ IH]; simpl; [reflexivity|].
    rewrite IH. now destruct He as [-> | [_ [v ->]]].
Qed.

(** X1.  A call of [imply_and_check], whatever it returns or raises,
    and a run of the command loop change nothing of the circuit but
    gate values: the gate map has the same keys in the same order, each
    gate keeps its name, type, fan-in, fan-out and flag, and the lists
    of inputs and outputs are the same. *)
Theorem imply_changes_values_only :
  (forall operate fuel faults location value D_drive direction c c' r,
     imply_and_check operate fuel faults location value D_drive direction c
     = (c', r) ->
     same_wiring c c') /\
  (forall operate write_state fuel D_drive commands r r' x,
     run_commands operate write_state fuel D_drive commands r = (r', x) ->
     same_wiring (circ r) (circ r')).
Proof.
  split; intros.
  - apply grows_same_wiring. eapply preserves_imply_and_check; eassumption.
  - apply grows_same_wiring. eapply preserves_run_commands; eassumption.
Qed.

Lemma imply_changes_values_only_witness :
  same_wiring d_holds_D
    (fst (imply_and_check Roth.operate 8 [] "a" Roth.One true BOTH d_holds_D)).
Proof.
  refine (proj1 imply_changes_values_only Roth.operate 8 [] "a" Roth.One true
            BOTH d_holds_D _ _ _).
  apply surjective_pairing.
Defined.

(** ** Values on a faulty line *)

Lemma lookup_update_other (k k' : string) (f : Gate -> Gate) (m : Gatemap) :
  k <> k' -> lookup k (update k' f m) = lookup k m.
Proof.
  intros Hne. induction m as [|[k1 g1] m IH]; simpl; trivial.
  destruct (String.eqb_spec k1 k') as [->|H1]; simpl.
  - destruct (String.eqb_spec k' k); [congruence | reflexivity].
  - destruct (String.eqb_spec k1 k); [reflexivity | exact IH].
Qed.

Lemma respects_refl faults (c : Circuit) : respects faults c c.
Proof.
  split; [apply grows_refl|]. intros k g g' H H'. left. congruence.
Qed.

Lemma respects_trans faults (c1 c2 c3 : Circuit) :
  respects faults c1 c2 -> respects faults c2 c3 -> respects faults c1 c3.
Proof.
  intros [G12 H12] [G23 H23]. split; [eapply grows_trans; eassumption|].
  intros k g g3 Hl Hl3.
  destruct (grows_lookup _ _ _ _ G12 Hl) as (v & Hl2 & _).
  destruct (H23 _ _ _ Hl2 Hl3) as [E|A]; [|now right].
  destruct (H12 _ _ _ Hl Hl2) as [E'|A'].
  - left. congruence.
  - right. now rewrite E.
Qed.

Lemma assign_value_respects faults location value :
  keeps (respects faults) (assign_value location faults value).
Proof.
  intros c c' r. unfold assign_value, bind, get_gate.
  destruct (lookup location (gatemap c)) as [g|] eqn:Hl;
    [|intros [= <- _]; apply respects_refl].
  destruct (new_output_of _ _) as [new_output|] eqn:Hn;
    [|intros [= <- _]; apply respects_refl].
  destruct (Roth_eqb_spec (Gate.value g) Roth.X) as [HX|HX].
  - unfold put_value. intros [= <- _]. split.
    + repeat split. simpl. eapply update_grows; eassumption.
    + simpl. intros k g0 g' H0 H'.
      destruct (String.eqb_spec k location) as [->|Hne].
      * rewrite lookup_update, H0 in H'. injection H' as <-.
        right. now exists value.
      * rewrite lookup_update_other in H' by exact Hne. left. congruence.
  - unfold guard. destruct (Roth.eqb _ _); intros [= <- _]; apply respects_refl.
Qed.

Lemma imply_and_check_respects operate fuel faults location value D_drive
    direction :
  keeps (respects faults)
    (imply_and_check operate fuel faults location value D_drive direction).
Proof.
  apply keeps_imply_and_check.
  - apply respects_refl.
  - apply respects_trans.
  - intros; apply assign_value_respects.
Qed.

(** X2.  A line with an active stuck-at-0 fault never comes to hold 1
    or D_b through a call of [imply_and_check], recursive calls
    included, and a line with an active stuck-at-1 fault never comes to
    hold 0 or D: if the gate did not hold such a value before the call,
    it does not hold one after it. *)
Theorem faulty_line_values operate fuel faults location value D_drive direction
    c c' r k f g g' :
  imply_and_check operate fuel faults location value D_drive direction c
  = (c', r) ->
  active_on faults k f ->
  lookup k (gatemap c) = Some g ->
  lookup k (gatemap c') = Some g' ->
  (Fault.value f = Roth.Zero ->
   Gate.value g <> Roth.One -> Gate.value g <> Roth.D_b ->
   Gate.value g' <> Roth.One /\ Gate.value g' <> Roth.D_b) /\
  (Fault.value f = Roth.One ->
   Gate.value g <> Roth.Zero -> Gate.value g <> Roth.D ->
   Gate.value g' <> Roth.Zero /\ Gate.value g' <> Roth.D).
Proof.
  intros Hrun Ha Hl Hl'.
  destruct (imply_and_check_respects _ _ _ _ _ _ _ _ _ _ Hrun) as [_ H].
  destruct (H _ _ _ Hl Hl') as [E | (incoming & A)].
  - rewrite E. tauto.
  - rewrite (scan_faults_active _ _ _ Ha) in A.
    split; intros Hv _ _; rewrite Hv in A;
      destruct incoming; simpl in A; try discriminate;
      injection A as <-; split; discriminate.
Qed.

Lemma faulty_line_values_witness :
  Gate.value (snd (with_value Roth.D (gate "d" "INPUT" [] ["g"]))) <> Roth.One /\
  Gate.value (snd (with_value Roth.D (gate "d" "INPUT" [] ["g"]))) <> Roth.D_b.
Proof.
  refine (proj1 (faulty_line_values Roth.operate 8 [Fault.mk Roth.Zero "d" None]
                   "d" Roth.One false BOTH and3_last d_holds_D (Norm true)
                   "d" (Fault.mk Roth.Zero "d" None)
                   (snd (gate "d" "INPUT" [] ["g"]))
                   (snd (with_value Roth.D (gate "d" "INPUT" [] ["g"])))
                   _ _ eq_refl eq_refl) eq_refl _ _).
  - vm_compute. reflexivity.
  - exists [], []. repeat split. constructor.
  - discriminate.
  - discriminate.
Defined.

(** ** Calls that stop at once *)

Lemma bind_raise {St A B} (m : ST St A) (k : A -> ST St B) s s' e :
  m s = (s', Raise e) -> bind m k s = (s', Raise e).
Proof. unfold bind. now intros ->. Qed.

(** X3.  An implication on a name that is no key of the gate map raises
    KeyError and leaves the circuit as it was; as an Imply command it
    ends the script with that exception, the faults and the output file
    untouched. *)
Theorem imply_unknown_gate operate fuel fs location value D_drive
    direction c :
  lookup location (gatemap c) = None ->
  imply_and_check operate (S fuel) fs location value D_drive direction c
  = (c, Raise KeyError) /\
  forall write_state fl out,
    run_command operate write_state (S fuel) D_drive
      (Command.Imply location value) (mkRun c fl out)
    = (mkRun c fl out, Raise KeyError).
Proof.
  intros Hl.
  assert (E : forall fl dir,
             imply_and_check operate (S fuel) fl location value D_drive dir c
             = (c, Raise KeyError)).
  { intros fl dir. simpl. unfold call, imply_body.
    rewrite (bind_raise _ _ c c KeyError); [reflexivity|].
    unfold assign_value.
    rewrite (bind_raise _ _ c c KeyError); [reflexivity|].
    unfold get_gate. now rewrite Hl. }
  split; [apply E|].
  intros write_state fl out. unfold run_command, bind, on_circ.
  cbn [circ faults ofile]. now rewrite E.
Qed.

Lemma imply_unknown_gate_witness :
  imply_and_check Roth.operate 1 [] "z" Roth.One false BOTH nand_circuit
  = (nand_circuit, Raise KeyError).
Proof.
  exact (proj1 (imply_unknown_gate Roth.operate 0 [] "z" Roth.One false BOTH
                  nand_circuit eq_refl)).
Defined.

(** X4.  A BACKWARD implication without unique D-drive on a gate of type
    INPUT ends there: when the gate holds X the effective value is
    stored on it, when it already holds the effective value, a definite one,
    nothing is written; no other gate is touched and the call returns True. *)
Theorem imply_backward_on_input operate fuel faults location value c g v :
  lookup location (gatemap c) = Some g ->
  Gate.gatetype g = "INPUT" ->
  effective_value faults location value = Some v ->
  (Gate.value g = Roth.X ->
   imply_and_check operate (S fuel) faults location value false BACKWARD c
   = (store location v c, Norm true)) /\
  (Gate.value g = v -> v <> Roth.X ->
   imply_and_check operate (S fuel) faults location value false BACKWARD c
   = (c, Norm true)).
Proof.
  intros Hl Ht He. unfold effective_value in He. split; [intros Hv|intros Hv Hd].
  - assert (Hl1 : lookup location (gatemap (store location v c))
                  = Some (Gate.set_value v g)).
    { unfold store. simpl. now rewrite lookup_update, Hl. }
    simpl. unfold call, imply_body.
    rewrite (bind_norm _ _ c (store location v c) tt).
    + rewrite (bind_norm _ _ _ _ _ (get_gate_some _ _ _ Hl1)).
      unfold justify. simpl. rewrite Ht. reflexivity.
    + unfold assign_value.
      rewrite (bind_norm _ _ _ _ _ (get_gate_some _ _ _ Hl)).
      rewrite He, Hv. reflexivity.
  - simpl. unfold call, imply_body.
    rewrite (bind_norm _ _ c c tt).
    + rewrite (bind_norm _ _ _ _ _ (get_gate_some _ _ _ Hl)).
      unfold justify. rewrite Ht. reflexivity.
    + unfold assign_value.
      rewrite (bind_norm _ _ _ _ _ (get_gate_some _ _ _ Hl)).
      rewrite He, Hv. destruct v; try reflexivity. contradiction.
Qed.

Lemma imply_backward_on_input_witness :
  imply_and_check Roth.operate 1 [] "A" Roth.One false BACKWARD nand_circuit
  = (store "A" Roth.One nand_circuit, Norm true).
Proof.
  exact (proj1 (imply_backward_on_input Roth.operate 0 [] "A" Roth.One
                  nand_circuit (snd (gate "A" "INPUT" [] ["G"])) Roth.One
                  eq_refl eq_refl eq_refl) eq_refl).
Defined.

(** ** Backward justification forces X fan-ins only *)

Lemma read_fanins_spec (names : list string) (c c' : Circuit)
    (r : list Roth * list string) :
  read_fanins names c = (c', Norm r) ->
  c' = c /\
  Forall2 (fun n v => exists g, lookup n (gatemap c) = Some g /\ Gate.value g = v)
    names (fst r) /\
  (forall n, In n (snd r) ->
     In n names /\
     exists g, lookup n (gatemap c) = Some g /\ Gate.value g = Roth.X).
Proof.
  revert c' r. induction names as [|n names IH]; intros c' r; simpl.
  - intros [= <- <-]. repeat split; [constructor | contradiction | contradiction].
  - unfold bind at 1. unfold get_gate.
    destruct (lookup n (gatemap c)) as [g|] eqn:Hl; [|discriminate].
    unfold bind at 1.
    destruct (read_fanins names c) as [c1 [r1| |]] eqn:E; try discriminate.
    destruct (IH _ _ eq_refl) as (-> & Hv & HX).
    intros [= <- <-]. simpl. repeat split.
    + constructor; [now exists g | exact Hv].
    + destruct (Roth_eqb_spec (Gate.value g) Roth.X) as [EX|NX].
      * destruct H as [<- | H]; [now left | right; now apply HX].
      * right; now apply HX.
    + destruct (Roth_eqb_spec (Gate.value g) Roth.X) as [EX|NX].
      * destruct H as [<- | H]; [now exists g | now apply HX].
      * now apply HX.
Qed.

Lemma assign_keys (k0 : string) (v0 : Roth) (d : list (string * Roth)) k v :
  In (k, v) (assign k0 v0 d) -> k = k0 \/ In (k, v) d.
Proof.
  induction d as [|[k1 v1] d IH]; simpl.
  - intros [[= <- <-] | []]. now left.
  - destruct (String.eqb_spec k1 k0) as [->|Hne]; simpl.
    + intros [[= <- <-] | H]; [now left | right; now right].
    + intros [H | H]; [right; now left|].
      destruct (IH H); [now left | right; now right].
Qed.

Lemma assign_all_keys (ks : list string) (v0 : Roth) (d : list (string * Roth))
    k v :
  In (k, v) (assign_all ks v0 d) -> In k ks \/ In (k, v) d.
Proof.
  unfold assign_all. revert d. induction ks as [|k1 ks IH]; intros d; simpl.
  - now right.
  - intros H. destruct (IH _ H) as [H1 | H1]; [left; now right|].
    destruct (assign_keys _ _ _ _ _ H1) as [-> | H2]; [left; now left | now right].
Qed.

(** Running a justification that only reads: its dict, read off the
    shape of the run. *)
Ltac run_reads :=
  unfold check_output, guard, first, bind, ret, return_, raise;
  repeat match goal with
         | |- context [if ?b then _ else _] => destruct b
         | |- context [match ?l with [] => _ | _ :: _ => _ end] => destruct l
         end;
  try discriminate.

Lemma justify_and_or_keys output hi nc cv stored inputs_list X_inputs_names
    (c c' : Circuit) d :
  justify_and_or output hi nc cv stored inputs_list X_inputs_names c
  = (c', Norm d) ->
  c' = c /\ forall k v, In (k, v) d -> In k X_inputs_names.
Proof.
  unfold justify_and_or.
  destruct (length X_inputs_names =? 0)%nat.
  { run_reads; intros [= <- <-]; split; trivial; contradiction. }
  destruct (_ && _).
  { unfold ret. intros [= <- <-]. split; trivial. intros k v H.
    destruct (assign_all_keys _ _ _ _ _ H) as [H1 | []]. exact H1. }
  destruct (_ && _).
  { destruct X_inputs_names as [|x l]; simpl; unfold raise, bind, ret;
      [discriminate|].
    intros [= <- <-]. split; trivial. intros k v [[= <- <-] | []]. now left. }
  unfold ret. intros [= <- <-]. split; trivial; contradiction.
Qed.

Lemma justify_xor_keys operate stored inputs_list X_inputs_names
    (c c' : Circuit) d :
  justify_xor operate stored inputs_list X_inputs_names c = (c', Norm d) ->
  c' = c /\ forall k v, In (k, v) d -> In k X_inputs_names.
Proof.
  unfold justify_xor. cbv zeta.
  destruct X_inputs_names as [|x l]; run_reads;
    intros [= <- <-]; split; trivial; simpl; intros k v H;
    try contradiction; destruct H as [[= <- <-] | []]; now left.
Qed.

Lemma justify_xnor_keys operate stored inputs_list X_inputs_names
    (c c' : Circuit) d :
  justify_xnor operate stored inputs_list X_inputs_names c = (c', Norm d) ->
  c' = c /\ forall k v, In (k, v) d -> In k X_inputs_names.
Proof.
  unfold justify_xnor. cbv zeta.
  destruct X_inputs_names as [|x l]; run_reads;
    intros [= <- <-]; split; trivial; simpl; intros k v H;
    try contradiction; destruct H as [[= <- <-] | []]; now left.
Qed.

Lemma count_one (v : Roth) (w : Roth) : count v [w] = 1 -> w = v.
Proof.
  unfold count. simpl. destruct (Roth_eqb_spec v w); [congruence | discriminate].
Qed.

(** X5.  The dict of forced assignments that the backward justification
    of a gate builds names fan-ins of the gate that hold X, and nothing
    else, and building it changes no gate value.  (A BUFF or NOT gate is
    taken to have its single fan-in; the source forces [fanin[0]].) *)
Theorem justify_forces_X_fanins operate gate_inst stored c c' d :
  justify operate gate_inst stored c = (c', Norm d) ->
  (Gate.gatetype gate_inst = "BUFF" \/ Gate.gatetype gate_inst = "NOT" ->
   length (Gate.fanin gate_inst) = 1) ->
  c' = c /\
  forall k v, In (k, v) d ->
    In k (Gate.fanin gate_inst) /\
    exists g, lookup k (gatemap c) = Some g /\ Gate.value g = Roth.X.
Proof.
  unfold justify. intros H Hone.
  destruct (Gate.gatetype gate_inst =? "INPUT").
  { injection H as <- <-. split; trivial; contradiction. }
  unfold bind at 1 in H.
  destruct (read_fanins (Gate.fanin gate_inst) c) as [c1 [r| |]] eqn:E;
    try discriminate.
  destruct (read_fanins_spec _ _ _ _ E) as (-> & Hv & HX).
  assert (Hbn : forall f,
             length (Gate.fanin gate_inst) = 1 ->
             justify_buff_not f gate_inst stored (fst r) c = (c', Norm d) ->
             c' = c /\
             forall k v, In (k, v) d ->
               In k (Gate.fanin gate_inst) /\
               exists g, lookup k (gatemap c) = Some g /\ Gate.value g = Roth.X).
  { intros f Hlen. unfold justify_buff_not.
    destruct (Gate.fanin gate_inst) as [|x [|y l]]; try discriminate.
    remember (fst r) as vals eqn:Evals. clear Evals.
    inversion Hv as [|n v0 ns vs (g & Hg & Hgv) Hrest]; subst.
    inversion Hrest; subst.
    destruct (Nat.eqb_spec (count Roth.X [Gate.value g]) 1) as [E1|E1].
    - apply count_one in E1. simpl. unfold bind, ret.
      intros [= <- <-]. split; trivial.
      intros k v [[= <- <-] | []]. split; [now left | now exists g].
    - simpl. unfold bind at 1. unfold ret at 1. unfold bind at 1.
      unfold get_gate. rewrite Hg. run_reads.
      intros [= <- <-]. split; trivial; contradiction. }
  destruct (String.eqb_spec (Gate.gatetype gate_inst) "AND");
    [destruct (justify_and_or_keys _ _ _ _ _ _ _ _ _ _ H) as [-> Hd];
     split; trivial; intros; apply HX; eauto|].
  destruct (String.eqb_spec (Gate.gatetype gate_inst) "NAND");
    [destruct (justify_and_or_keys _ _ _ _ _ _ _ _ _ _ H) as [-> Hd];
     split; trivial; intros; apply HX; eauto|].
  destruct (String.eqb_spec (Gate.gatetype gate_inst) "OR");
    [destruct (justify_and_or_keys _ _ _ _ _ _ _ _ _ _ H) as [-> Hd];
     split; trivial; intros; apply HX; eauto|].
  destruct (String.eqb_spec (Gate.gatetype gate_inst) "NOR");
    [destruct (justify_and_or_keys _ _ _ _ _ _ _ _ _ _ H) as [-> Hd];
     split; trivial; intros; apply HX; eauto|].
  destruct (String.eqb_spec (Gate.gatetype gate_inst) "BUFF");
    [eapply Hbn; eauto|].
  destruct (String.eqb_spec (Gate.gatetype gate_inst) "NOT");
    [eapply Hbn; eauto|].
  destruct (String.eqb_spec (Gate.gatetype gate_inst) "XOR");
    [destruct (justify_xor_keys _ _ _ _ _ _ _ H) as [-> Hd];
     split; trivial; intros; apply HX; eauto|].
  destruct (String.eqb_spec (Gate.gatetype gate_inst) "XNOR");
    [destruct (justify_xnor_keys _ _ _ _ _ _ _ H) as [-> Hd];
     split; trivial; intros; apply HX; eauto|].
  injection H as <- <-. split; trivial; contradiction.
Qed.

(** ** The X-path search *)

Lemma eq_trans_state {St : Type} (s1 s2 s3 : St) : s1 = s2 -> s2 = s3 -> s1 = s3.
Proof. congruence. Qed.

Lemma keeps_values_of {St} (R : St -> St -> Prop) circuit names :
  (forall s, R s s) -> (forall s1 s2 s3, R s1 s2 -> R s2 s3 -> R s1 s3) ->
  keeps R (values_of (St := St) circuit names).
Proof.
  intros Hr Ht. induction names; simpl; keeps_auto. exact IHnames.
Qed.

Lemma keeps_on_d_frontier {St} (R : St -> St -> Prop) circuit gate_inst :
  (forall s, R s s) -> (forall s1 s2 s3, R s1 s2 -> R s2 s3 -> R s1 s3) ->
  keeps R (on_d_frontier (St := St) circuit gate_inst).
Proof.
  intros Hr Ht. unfold on_d_frontier. keeps_auto. now apply keeps_values_of.
Qed.

Lemma keeps_x_count {St} (R : St -> St -> Prop) circuit gate_name fanins :
  (forall s, R s s) -> (forall s1 s2 s3, R s1 s2 -> R s2 s3 -> R s1 s3) ->
  keeps R (x_count (St := St) circuit gate_name fanins).
Proof. intros Hr Ht. unfold x_count. keeps_auto. Qed.

Lemma keeps_x_path_check_utils {St} (R : St -> St -> Prop) fuel circuit gate_name :
  (forall s, R s s) -> (forall s1 s2 s3, R s1 s2 -> R s2 s3 -> R s1 s3) ->
  keeps R (x_path_check_utils (St := St) fuel circuit gate_name).
Proof.
  intros Hr Ht. revert gate_name.
  induction fuel as [|fuel IH]; intros gate_name; simpl; keeps_auto.
  now apply keeps_x_count.
Qed.

Lemma x_path_check_utils_reads {St} fuel circuit gate_name (s s' : St) r :
  x_path_check_utils fuel circuit gate_name s = (s', r) -> s' = s.
Proof.
  intros H. symmetry.
  eapply (keeps_x_path_check_utils eq); eauto; congruence.
Qed.

Lemma x_path_check_utils_no_retn {St} fuel circuit gate_name (s s' : St) b :
  x_path_check_utils fuel circuit gate_name s <> (s', Retn b).
Proof.
  destruct fuel; simpl; [discriminate|]. unfold call.
  destruct (bind _ _ s) as [s1 [a|b'|e]]; discriminate.
Qed.

Lemma x_count_spec_from {St} circuit gate_name fanins acc (s s' : St) k :
  for_each fanins acc
    (fun fanin_name X_count =>
       if fanin_name =? gate_name then ret X_count
       else
         g <- gate_of circuit fanin_name ;;
         if Roth.eqb (Gate.value g) Roth.X then ret (S X_count) else ret X_count)
    s = (s', Norm k) ->
  k = acc + other_X_count circuit gate_name fanins.
Proof.
  unfold other_X_count. revert acc s.
  induction fanins as [|n fanins IH]; intros acc s; simpl.
  - intros [= _ <-]. lia.
  - unfold bind at 1.
    destruct (String.eqb_spec n gate_name) as [->|Hne]; simpl.
    + intros H. now apply IH in H.
    + unfold gate_of, bind at 1.
      destruct (lookup n (gatemap circuit)) as [g|]; simpl; [|discriminate].
      destruct (Roth.eqb (Gate.value g) Roth.X); simpl; intros H;
        apply IH in H; lia.
Qed.

Lemma x_count_spec {St} circuit gate_name fanins (s s' : St) k :
  x_count circuit gate_name fanins s = (s', Norm k) ->
  k = other_X_count circuit gate_name fanins.
Proof. intros H. now apply x_count_spec_from in H. Qed.

Lemma x_count_no_retn {St} circuit gate_name fanins (s s' : St) b :
  x_count circuit gate_name fanins s <> (s', Retn b).
Proof.
  unfold x_count. generalize 0. revert s.
  induction fanins as [|n l IH]; intros s acc; simpl; [discriminate|].
  unfold bind at 1.
  destruct (n =? gate_name); simpl; [apply IH|].
  unfold gate_of, bind at 1.
  destruct (lookup n (gatemap circuit)); simpl; [|discriminate].
  destruct (Roth.eqb _ _); simpl; apply IH.
Qed.

Section XPathLoop.

Context {St : Type}.
Variable circuit : Circuit.
Variable rec : string -> ST St bool.
Hypothesis rec_decides :
  forall n s s' b, rec n s = (s', Norm b) -> (b = true <-> x_path circuit n).
Hypothesis rec_no_retn : forall n s s' b, rec n s <> (s', Retn b).
Variable gate_name : string.

Lemma fanout_step_verdict fanout_name (s s' : St) r :
  (fo <- gate_of circuit fanout_name ;;
   X_count <- x_count circuit gate_name (Gate.fanin fo) ;;
   if (0 <? X_count)%nat || (Gate.gatetype fo =? "NOT") then
     b <- rec fanout_name ;;
     if b then return_ true else ret tt
   else ret tt) s = (s', r) ->
  fanout_verdict circuit gate_name [fanout_name] r.
Proof.
  unfold bind at 1. unfold gate_of.
  destruct (lookup fanout_name (gatemap circuit)) as [fo|] eqn:Hl; simpl;
    [|intros [= _ <-]; exact I].
  unfold bind at 1.
  destruct (x_count circuit gate_name (Gate.fanin fo) s) as [s1 [k| |]] eqn:Ek;
    try (intros [= _ <-]; try exact I).
  - apply x_count_spec in Ek. subst k.
    destruct ((0 <? _)%nat || _) eqn:Hc.
    + assert (Hcond : 0 < other_X_count circuit gate_name (Gate.fanin fo)
                      \/ Gate.gatetype fo = "NOT").
      { apply orb_true_iff in Hc as [H|H];
          [left; now apply Nat.ltb_lt | right; now apply String.eqb_eq]. }
      unfold bind.
      destruct (rec fanout_name s1) as [s2 [[|]| |]] eqn:Er;
        intros [= _ <-]; simpl; trivial.
      * split; trivial. exists fanout_name, fo. repeat split; auto.
        now apply (rec_decides _ _ _ _ Er).
      * intros n fo' [<- | []] Hl' _ Hp.
        apply (rec_decides _ _ _ _ Er) in Hp. discriminate.
      * exfalso. eapply rec_no_retn; eassumption.
    + intros [= _ <-]. simpl. intros n fo' [<- | []] Hl' Hcond.
      rewrite Hl in Hl'. injection Hl' as <-.
      apply orb_false_iff in Hc as [H1 H2].
      destruct Hcond as [H|H].
      * apply Nat.ltb_ge in H1. lia.
      * apply String.eqb_neq in H2. contradiction.
  - exfalso. eapply x_count_no_retn; eassumption.
Qed.

Lemma fanout_loop_verdict names (s s' : St) r :
  for_each names tt
    (fun fanout_name _ =>
       fo <- gate_of circuit fanout_name ;;
       X_count <- x_count circuit gate_name (Gate.fanin fo) ;;
       if (0 <? X_count)%nat || (Gate.gatetype fo =? "NOT") then
         b <- rec fanout_name ;;
         if b then return_ true else ret tt
       else ret tt)
    s = (s', r) ->
  fanout_verdict circuit gate_name names r.
Proof.
  revert s. induction names as [|n names IH]; intros s; simpl.
  - intros [= _ <-]. simpl. intros ? ? [].
  - unfold bind at 1.
    match goal with
    | |- context [match ?m s with _ => _ end] => destruct (m s) as [s1 [[]| |]] eqn:E
    end.
    + apply fanout_step_verdict in E. intros H. apply IH in H.
      destruct r as [[]|b|e]; simpl in *; trivial.
      * intros x fo [<- | Hin]; [apply E; now left | now apply H].
      * destruct H as (-> & x & fo & Hin & Hrest). split; trivial.
        exists x, fo. split; [now right | exact Hrest].
    + apply fanout_step_verdict in E. intros [= _ <-].
      destruct E as (-> & x & fo & [<- | []] & Hrest). split; trivial.
      exists n, fo. split; [now left | exact Hrest].
    + intros [= _ <-]. exact I.
Qed.

End XPathLoop.

Lemma x_path_check_utils_verdict {St : Type} fuel circuit gate_name
    (s s' : St) b :
  x_path_check_utils fuel circuit gate_name s = (s', Norm b) ->
  s' = s /\ (b = true <-> x_path circuit gate_name).
Proof.
  intros H. split; [eapply x_path_check_utils_reads; eassumption|].
  revert gate_name s s' b H.
  induction fuel as [|fuel IH]; intros gate_name s s' b; simpl; [discriminate|].
  unfold call, bind at 1, gate_of.
  destruct (lookup gate_name (gatemap circuit)) as [g|] eqn:Hl; simpl;
    [|discriminate].
  destruct (Nat.eqb_spec (length (Gate.fanout g)) 0) as [E0|N0].
  - intros [= _ <-]. split; trivial. intros _.
    apply (x_path_end circuit gate_name g Hl).
    now destruct (Gate.fanout g).
  - unfold bind at 1.
    match goal with
    | |- context [for_each ?l tt ?body s] =>
        destruct (for_each l tt body s) as [s1 [[]|b1|e]] eqn:E
    end; try discriminate.
    + apply (fanout_loop_verdict circuit (x_path_check_utils fuel circuit)) in E;
        [|exact IH | intros; apply x_path_check_utils_no_retn].
      intros [= _ <-]. split; [discriminate|]. intros Hp. exfalso.
      inversion Hp as [n g' Hl' Hf | n g' fn fo Hl' Hin Hfo Hc Hp']; subst;
        rewrite Hl in Hl'; injection Hl' as <-.
      * rewrite Hf in N0. now apply N0.
      * now apply (E fn fo).
    + apply (fanout_loop_verdict circuit (x_path_check_utils fuel circuit)) in E;
        [|exact IH | intros; apply x_path_check_utils_no_retn].
      destruct E as (-> & fn & fo & Hin & Hfo & Hc & Hp).
      intros [= _ <-]. split; trivial. intros _.
      now apply (x_path_through circuit gate_name g fn fo).
Qed.

(** X6.  [x_path_check_utils] leaves its state alone, and when it
    returns, it returns True exactly when an X-path leaves the gate: the
    gate has no fan-out, or one of its fan-outs is a NOT or holds X on
    another fan-in and an X-path leaves that fan-out in turn. *)
Theorem x_path_check_utils_decides {St : Type} fuel circuit gate_name
    (s s' : St) b :
  x_path_check_utils fuel circuit gate_name s = (s', Norm b) ->
  s' = s /\ (b = true <-> x_path circuit gate_name).
Proof. apply x_path_check_utils_verdict. Qed.

(** ** The report writers *)

Lemma append_assoc (a b c : string) : (a ++ b) ++ c = a ++ (b ++ c).
Proof. induction a as [|x a IH]; simpl; [reflexivity | now rewrite IH]. Qed.

Lemma append_nil_r (a : string) : a ++ EmptyString = a.
Proof. induction a as [|x a IH]; simpl; [reflexivity | now rewrite IH]. Qed.

Lemma extends_refl (s : string) : extends s s.
Proof. exists EmptyString. now rewrite append_nil_r. Qed.

Lemma extends_trans (s1 s2 s3 : string) :
  extends s1 s2 -> extends s2 s3 -> extends s1 s3.
Proof. intros [t ->] [u ->]. exists (t ++ u). apply append_assoc. Qed.

Lemma values_of_spec {St} circuit names (s s' : St) r :
  values_of circuit names s = (s', r) ->
  s' = s /\
  match r with
  | Norm vs => vs = map (value_of circuit) names
  | Retn _ => False
  | Raise e => e = KeyError /\ ~ Forall (fun n => lookup n (gatemap circuit) <> None) names
  end.
Proof.
  revert s' r. induction names as [|n names IH]; intros s' r; simpl.
  - intros [= <- <-]. now split.
  - unfold bind at 1, gate_of, value_of.
    destruct (lookup n (gatemap circuit)) as [g|] eqn:Hl; simpl.
    + unfold bind.
      destruct (values_of circuit names s) as [s1 [vs|b|e]] eqn:E;
        destruct (IH _ _ eq_refl) as [-> H]; intros [= <- <-];
        split; trivial.
      * now rewrite H.
      * destruct H as [-> H]. split; trivial. intros HF. apply H.
        now inversion HF.
    + intros [= <- <-]. split; trivial. split; trivial.
      intros HF. inversion HF. congruence.
Qed.

Lemma d_count_existsb (vs : list Roth) :
  (0 <? length (filter is_D_or_D_b vs))%nat = existsb is_D_or_D_b vs.
Proof.
  induction vs as [|v vs IH]; simpl; [reflexivity|].
  destruct (is_D_or_D_b v); simpl; [reflexivity | exact IH].
Qed.

Lemma existsb_map {A B} (f : B -> bool) (g : A -> B) (l : list A) :
  existsb f (map g l) = existsb (fun x => f (g x)) l.
Proof. induction l; simpl; [reflexivity | now rewrite IHl]. Qed.

Lemma on_d_frontier_spec {St} circuit gate_inst (s s' : St) r :
  on_d_frontier circuit gate_inst s = (s', r) ->
  s' = s /\
  match r with
  | Norm b => b = d_frontier circuit gate_inst
  | Retn _ => False
  | Raise e =>
      ~ Forall (fun n => lookup n (gatemap circuit) <> None) (Gate.fanin gate_inst)
  end.
Proof.
  unfold on_d_frontier, bind.
  destruct (values_of circuit (Gate.fanin gate_inst) s) as [s1 [vs|b|e]] eqn:E;
    destruct (values_of_spec _ _ _ _ _ E) as [-> H]; intros [= <- <-];
    split; trivial.
  - subst vs. unfold d_frontier. now rewrite d_count_existsb, existsb_map.
  - now destruct H.
Qed.

Lemma d_front_loop circuit (l : Gatemap) (out : string) :
  Forall
    (fun ng =>
       Forall (fun n => lookup n (gatemap circuit) <> None) (Gate.fanin (snd ng))) l ->
  for_each l tt
    (fun ng _ =>
       b <- on_d_frontier circuit (snd ng) ;;
       if b then write (fst ng ++ nl) else ret tt)
    out
  = (out ++ lines (map fst (filter (fun ng => d_frontier circuit (snd ng)) l)),
     Norm tt).
Proof.
  intros H. revert out. induction H as [|ng l Hng _ IH]; intros out; simpl.
  - unfold ret. now rewrite append_nil_r.
  - unfold bind at 1. unfold bind at 1.
    destruct (on_d_frontier circuit (snd ng) out) as [s1 [b| |]] eqn:E;
      destruct (on_d_frontier_spec _ _ _ _ _ E) as [-> Hb];
      try contradiction.
    subst b. destruct (d_frontier circuit (snd ng)); simpl.
    + unfold write at 1. rewrite IH. now rewrite !append_assoc.
    + unfold ret at 1. apply IH.
Qed.

(** X7.  On a circuit whose fan-in names are all keys of the gate map,
    the Dfront command raises nothing and appends one section to the
    file: the header, the name of every gate that holds X with a D or
    D_b on a fan-in, in the order of the gate map, the [$] line and a
    blank line. *)
Theorem report_d_front_section circuit out :
  fanins_known circuit ->
  report_d_front circuit out
  = (out ++ "D-Frontier" ++ nl
         ++ lines (map fst (filter (fun ng => d_frontier circuit (snd ng))
                              (gatemap circuit)))
         ++ "$" ++ nl ++ nl,
     Norm tt).
Proof.
  intros H. unfold report_d_front, bind, write.
  rewrite (d_front_loop circuit _ _ H). now rewrite !append_assoc.
Qed.

Lemma report_d_front_section_witness :
  report_d_front d_holds_D "log"
  = ("log" ++ "D-Frontier" ++ nl ++ lines ["g"] ++ "$" ++ nl ++ nl, Norm tt).
Proof.
  refine (report_d_front_section d_holds_D "log" _).
  repeat constructor; discriminate.
Defined.

Lemma x_path_loop fuel circuit (l : Gatemap) (out out' : string) r :
  for_each l tt
    (fun ng _ =>
       let gate_inst := snd ng in
       b <- on_d_frontier circuit gate_inst ;;
       if b then
         found <- x_path_check_utils fuel circuit (Gate.name gate_inst) ;;
         if found then
           write (Gate.name gate_inst ++ nl) ;;; return_ true
         else ret tt
       else ret tt)
    out = (out', r) ->
  match r with
  | Norm _ => out' = out /\ no_x_path circuit l
  | Retn _ =>
      exists ng, first_x_path circuit l ng /\
                 out' = out ++ Gate.name (snd ng) ++ nl
  | Raise _ => True
  end.
Proof.
  revert out. induction l as [|ng l IH]; intros out; simpl.
  - intros [= <- <-]. split; trivial. intros ? [].
  - unfold bind at 1. unfold bind at 1.
    destruct (on_d_frontier circuit (snd ng) out) as [s1 [b| |]] eqn:E;
      destruct (on_d_frontier_spec _ _ _ _ _ E) as [-> Hb];
      try contradiction; [|intros [= _ <-]; exact I].
    subst b. destruct (d_frontier circuit (snd ng)) eqn:Hd.
    + unfold bind at 1.
      destruct (x_path_check_utils fuel circuit (Gate.name (snd ng)) out)
        as [s2 [found| |]] eqn:Ex.
      * destruct (x_path_check_utils_verdict _ _ _ _ _ _ Ex) as [-> Hp].
        destruct found.
        -- unfold bind, write, return_. intros [= <- <-].
           exists ng. split; trivial. exists [], l. repeat split; trivial.
           ++ intros ? [].
           ++ now apply Hp.
        -- unfold ret at 1. intros H. apply IH in H.
           destruct r as [[]|b|e]; trivial.
           ++ destruct H as [-> Hn]. split; trivial.
              intros ng' [<- | Hin] Hd'; [|now apply Hn].
              intros Hx. apply Hp in Hx. discriminate.
           ++ destruct H as (ng1 & (pre & post & -> & Hpre & Hd1 & Hx1) & ->).
              exists ng1. split; trivial.
              exists (ng :: pre), post. repeat split; trivial.
              intros ng' [<- | Hin] Hd'; [|now apply Hpre].
              intros Hx. apply Hp in Hx. discriminate.
      * exfalso. eapply x_path_check_utils_no_retn; eassumption.
      * intros [= _ <-]. exact I.
    + unfold ret at 1. intros H. apply IH in H.
      destruct r as [[]|b|e]; trivial.
      * destruct H as [-> Hn]. split; trivial.
        intros ng' [<- | Hin] Hd'; [congruence | now apply Hn].
      * destruct H as (ng1 & (pre & post & -> & Hpre & Hd1 & Hx1) & ->).
        exists ng1. split; trivial.
        exists (ng :: pre), post. repeat split; trivial.
        intros ng' [<- | Hin] Hd'; [congruence | now apply Hpre].
Qed.

(** X8.  When the Xpath command returns, it has appended to the file
    either the header, the [$] line and a blank line, and then no gate
    on the D-frontier has an X-path; or the header and the name of the
    first gate of the gate map that is on the D-frontier and has an
    X-path, and nothing after that name. *)
Theorem x_path_check_section fuel circuit out out' :
  x_path_check fuel circuit out = (out', Norm tt) ->
  (out' = out ++ "X-PATH" ++ nl ++ "$" ++ nl ++ nl /\
   no_x_path circuit (gatemap circuit)) \/
  (exists ng,
     first_x_path circuit (gatemap circuit) ng /\
     out' = out ++ "X-PATH" ++ nl ++ Gate.name (snd ng) ++ nl).
Proof.
  unfold x_path_check, proc. unfold bind at 1. unfold write at 1.
  unfold bind at 1.
  match goal with
  | |- context [for_each ?l tt ?body ?s] =>
      destruct (for_each l tt body s) as [s1 [[]|b|e]] eqn:E
  end; apply x_path_loop in E.
  - destruct E as [-> Hn]. unfold write. intros [= <-]. left.
    split; trivial. now rewrite !append_assoc.
  - destruct E as (ng & Hf & ->). intros [= <-]. right.
    exists ng. split; trivial. now rewrite !append_assoc.
  - discriminate.
Qed.

Lemma x_path_check_section_witness :
  ("log" ++ "X-PATH" ++ nl ++ "g" ++ nl
   = "log" ++ "X-PATH" ++ nl ++ "$" ++ nl ++ nl /\
   no_x_path d_holds_D (gatemap d_holds_D)) \/
  (exists ng,
     first_x_path d_holds_D (gatemap d_holds_D) ng /\
     "log" ++ "X-PATH" ++ nl ++ "g" ++ nl
     = "log" ++ "X-PATH" ++ nl ++ Gate.name (snd ng) ++ nl).
Proof.
  refine (x_path_check_section 4 d_holds_D "log" _ _).
  vm_compute. reflexivity.
Defined.

(** ** The J-frontier report *)

Lemma j_output_reads operate circuit (gate_inst : Gate) (inputs : list Roth)
    (s s' : string) r :
  (let gt := Gate.gatetype gate_inst in
   if (gt =? "AND") || (gt =? "XOR") || (gt =? "OR")
   then ret (operate gt inputs)
   else if gt =? "XNOR" then ret (Roth.invert (operate "XOR" inputs))
   else if gt =? "NAND" then ret (Roth.invert (operate "AND" inputs))
   else if gt =? "BUFF" then
     x <- first (Gate.fanin gate_inst) ;;
     g <- gate_of circuit x ;; ret (Gate.value g)
   else if gt =? "NOT" then
     x <- first (Gate.fanin gate_inst) ;;
     g <- gate_of circuit x ;; ret (Roth.invert (Gate.value g))
   else ret Roth.X) s = (s', r) ->
  s' = s /\
  (Gate.gatetype gate_inst = "NOR" -> r = Norm Roth.X).
Proof.
  intros H. split.
  - symmetry. revert H. cbv zeta.
    match goal with
    | |- ?m s = _ -> _ => assert (K : keeps eq m)
    end.
    { assert (Hr : forall t : string, t = t) by reflexivity.
      assert (Ht : forall t1 t2 t3 : string, t1 = t2 -> t2 = t3 -> t1 = t3)
        by congruence.
      keeps_auto. }
    apply K.
  - intros Ht. rewrite Ht in H. simpl in H. now injection H as _ <-.
Qed.

Lemma j_front_loop operate circuit (l : Gatemap) (out out' : string) :
  for_each l tt
    (fun ng _ =>
       let gate_inst := snd ng in
       let gt := Gate.gatetype gate_inst in
       inputs <- values_of circuit (Gate.fanin gate_inst) ;;
       output <-
         (if (gt =? "AND") || (gt =? "XOR") || (gt =? "OR")
          then ret (operate gt inputs)
          else if gt =? "XNOR" then ret (Roth.invert (operate "XOR" inputs))
          else if gt =? "NAND" then ret (Roth.invert (operate "AND" inputs))
          else if gt =? "BUFF" then
            x <- first (Gate.fanin gate_inst) ;;
            g <- gate_of circuit x ;; ret (Gate.value g)
          else if gt =? "NOT" then
            x <- first (Gate.fanin gate_inst) ;;
            g <- gate_of circuit x ;; ret (Roth.invert (Gate.value g))
          else ret Roth.X) ;;
       if negb (gt =? "INPUT") && Roth.eqb output Roth.X
          && negb (Roth.eqb (Gate.value gate_inst) Roth.X)
       then write (fst ng ++ nl) else ret tt)
    out = (out', Norm tt) ->
  exists names,
    out' = out ++ lines names /\
    (forall n, In n names ->
       exists g, In (n, g) l /\ Gate.gatetype g <> "INPUT"
                 /\ Gate.value g <> Roth.X) /\
    (forall n g, In (n, g) l -> Gate.gatetype g = "NOR" ->
       Gate.value g <> Roth.X -> In n names).
Proof.
  revert out. induction l as [|[n g] l IH]; intros out; simpl.
  - intros [= <-]. exists []. simpl. rewrite append_nil_r.
    repeat split; trivial; intros; contradiction.
  - unfold bind at 1. unfold bind at 1.
    destruct (values_of circuit (Gate.fanin g) out) as [s1 [inputs| |]] eqn:Ev;
      try discriminate.
    destruct (values_of_spec _ _ _ _ _ Ev) as [-> _].
    unfold bind at 1.
    match goal with
    | |- context [match ?m out with _ => _ end] =>
        destruct (m out) as [s2 [output| |]] eqn:Eo
    end; try discriminate.
    destruct (j_output_reads operate circuit g inputs _ _ _ Eo) as [-> Hnor].
    destruct (negb (Gate.gatetype g =? "INPUT") && Roth.eqb output Roth.X
              && negb (Roth.eqb (Gate.value g) Roth.X)) eqn:Hc.
    + unfold write at 1. intros H.
      destruct (IH _ H) as (names & -> & Hs & Hn).
      exists (n :: names). simpl. rewrite !append_assoc. repeat split.
      * intros m [<- | Hin].
        -- exists g. apply andb_true_iff in Hc as [Hc Hv].
           apply andb_true_iff in Hc as [Ht _].
           split; [now left|]. split.
           ++ apply negb_true_iff, String.eqb_neq in Ht. exact Ht.
           ++ apply negb_true_iff in Hv.
              now destruct (Roth_eqb_spec (Gate.value g) Roth.X).
        -- destruct (Hs _ Hin) as (g' & Hin' & Hrest). exists g'.
           split; [now right | exact Hrest].
      * intros m g' [[= <- <-] | Hin] Ht Hv; [now left|].
        right. eapply Hn; eassumption.
    + unfold ret at 1. intros H.
      destruct (IH _ H) as (names & -> & Hs & Hn).
      exists names. repeat split.
      * intros m Hin. destruct (Hs _ Hin) as (g' & Hin' & Hrest). exists g'.
        split; [now right | exact Hrest].
      * intros m g' [[= <- <-] | Hin] Ht Hv; [|eapply Hn; eassumption].
        exfalso. specialize (Hnor Ht). injection Hnor as ->.
        rewrite Ht in Hc. simpl in Hc.
        destruct (Roth_eqb_spec (Gate.value g) Roth.X); [contradiction|].
        discriminate.
Qed.

(** X9.  When the Jfront command returns, it has appended the header,
    a line for each gate it lists, the [$] line and a blank line.  Every
    gate listed is a gate of the circuit that is not an INPUT and holds
    a definite value; and every NOR gate that holds a definite value is
    listed, whatever its fan-ins hold, no gate equation being evaluated
    for the type NOR. *)
Theorem report_j_front_section operate circuit out out' :
  report_j_front operate circuit out = (out', Norm tt) ->
  exists names,
    out' = out ++ "J-Frontier" ++ nl ++ lines names ++ "$" ++ nl ++ nl /\
    (forall n, In n names ->
       exists g, In (n, g) (gatemap circuit) /\ Gate.gatetype g <> "INPUT"
                 /\ Gate.value g <> Roth.X) /\
    (forall n g, In (n, g) (gatemap circuit) -> Gate.gatetype g = "NOR" ->
       Gate.value g <> Roth.X -> In n names).
Proof.
  unfold report_j_front. unfold bind at 1. unfold write at 1.
  unfold bind at 1.
  match goal with
  | |- context [for_each ?l tt ?body ?s] =>
      destruct (for_each l tt body s) as [s1 [[]|b|e]] eqn:E
  end; try discriminate.
  apply j_front_loop in E. destruct E as (names & -> & Hs & Hn).
  unfold write. intros [= <-]. exists names.
  split; [now rewrite !append_assoc | now split].
Qed.

Lemma report_j_front_section_witness :
  exists names,
    "log" ++ "J-Frontier" ++ nl ++ "$" ++ nl ++ nl
    = "log" ++ "J-Frontier" ++ nl ++ lines names ++ "$" ++ nl ++ nl /\
    (forall n, In n names ->
       exists g, In (n, g) (gatemap d_holds_D) /\ Gate.gatetype g <> "INPUT"
                 /\ Gate.value g <> Roth.X) /\
    (forall n g, In (n, g) (gatemap d_holds_D) -> Gate.gatetype g = "NOR" ->
       Gate.value g <> Roth.X -> In n names).
Proof.
  refine (report_j_front_section Roth.operate d_holds_D "log" _ _).
  vm_compute. reflexivity.
Defined.

(** ** The command loop and its file *)

Lemma keeps_write (s : string) : keeps extends (write s).
Proof. intros out out' r [= <- _]. now exists s. Qed.

Ltac keeps_extends :=
  assert (Hr := extends_refl); assert (Ht := extends_trans);
  keeps_auto;
  auto using keeps_write, keeps_values_of, keeps_on_d_frontier,
    keeps_x_path_check_utils.

Lemma keeps_report_d_front circuit : keeps extends (report_d_front circuit).
Proof. unfold report_d_front. keeps_extends. Qed.

Lemma keeps_report_j_front operate circuit :
  keeps extends (report_j_front operate circuit).
Proof. unfold report_j_front. keeps_extends. Qed.

Lemma keeps_x_path_check fuel circuit : keeps extends (x_path_check fuel circuit).
Proof. unfold x_path_check. keeps_extends. Qed.

(** X10.  The output file is only ever appended to: what a run of the
    command loop leaves in it starts with what was there before,
    whatever the commands and however the run ends.  Fault and Imply
    write nothing to it, and the commands that write a report change
    neither the circuit nor the active faults. *)
Theorem commands_append_to_file operate write_state fuel D_drive :
  (forall commands r r' x,
     run_commands operate write_state fuel D_drive commands r = (r', x) ->
     extends (ofile r) (ofile r')) /\
  (forall command r r' x,
     run_command operate write_state fuel D_drive command r = (r', x) ->
     if is_report command
     then circ r' = circ r /\ faults r' = faults r
     else ofile r' = ofile r).
Proof.
  assert (Hone : forall command r r' x,
             run_command operate write_state fuel D_drive command r = (r', x) ->
             (if is_report command
              then circ r' = circ r /\ faults r' = faults r
              else ofile r' = ofile r) /\
             extends (ofile r) (ofile r')).
  { intros command r r' x.
    destruct command; simpl; unfold on_ofile, on_circ, bind; simpl.
    - intros [= <- _]. simpl. split; [reflexivity | apply extends_refl].
    - destruct (imply_and_check _ _ _ _ _ _ _ (circ r)) as [c1 [[|]| |]];
        intros [= <- _]; simpl; split; try reflexivity; apply extends_refl.
    - intros [= <- _]. simpl. split; [now split|].
      eapply keeps_report_j_front. apply surjective_pairing.
    - intros [= <- _]. simpl. split; [now split|].
      eapply keeps_report_d_front. apply surjective_pairing.
    - intros [= <- _]. simpl. split; [now split|].
      eapply keeps_x_path_check. apply surjective_pairing.
    - intros [= <- _]. simpl. split; [now split|].
      now exists (write_state (circ r)). }
  split; [|intros; eapply Hone; eassumption].
  intros commands r r' x. unfold run_commands.
  apply (keeps_for_each (fun r r' : Run => extends (ofile r) (ofile r'))).
  - intros; apply extends_refl.
  - intros; eapply extends_trans; eassumption.
  - intros command [] r0 r1 x0 H. eapply Hone; eassumption.
Qed.



Lemma commands_append_to_file_witness :
  extends "log"
    (ofile (fst (run_commands Roth.operate (fun _ => "state") 8 false
                   [Command.Dfront; Command.Display]
                   (mkRun d_holds_D [] "log")))).
Proof.
  refine (proj1 (commands_append_to_file Roth.operate (fun _ => "state") 8 false)
            [Command.Dfront; Command.Display] (mkRun d_holds_D [] "log") _ _ _).
  apply surjective_pairing.
Defined.


(** ** The collapser only appends *)

Lemma appended_refl fc top : appended fc top fc top.
Proof.
  split; [reflexivity|].
  split; [exists []; now rewrite app_nil_r|].
  split; [exists []; now rewrite app_nil_r|].
  exists []. split; [now rewrite app_nil_r | constructor].
Qed.

Lemma appended_trans fc1 top1 fc2 top2 fc3 top3 :
  appended fc1 top1 fc2 top2 -> appended fc2 top2 fc3 top3 ->
  appended fc1 top1 fc3 top3.
Proof.
  intros (R1 & (a1 & A1) & (d1 & D1) & (t1 & T1 & F1))
         (R2 & (a2 & A2) & (d2 & D2) & (t2 & T2 & F2)).
  repeat split.
  - congruence.
  - exists (a1 ++ a2)%list. now rewrite A2, A1, app_assoc.
  - exists (d1 ++ d2)%list. now rewrite D2, D1, app_assoc.
  - exists (t1 ++ t2)%list. split; [now rewrite T2, T1, app_assoc|].
    apply Forall_app. now split.
Qed.

Lemma appended_add_equivalent f fc top : appended fc top (add_equivalent f fc) top.
Proof.
  destruct fc as [r a d]. repeat split; simpl.
  - now exists [f].
  - exists []. now rewrite app_nil_r.
  - exists []. split; [now rewrite app_nil_r | constructor].
Qed.

Section CollapseAppends.

Variable rec : Fault -> FaultClass -> list FaultClass -> cres Collapsed.
Hypothesis rec_appends :
  forall f fc top r, rec f fc top = Ok r -> appended fc top (fltclass r) (top_fcs r).

Lemma collapse_fanin_appends circ fault_value gate_type gate_name fi_name st r :
  collapse_fanin rec circ fault_value gate_type gate_name fi_name st = Ok r ->
  appended (fltclass st) (top_fcs st) (fltclass r) (top_fcs r).
Proof.
  unfold collapse_fanin.
  destruct (fanin_faults circ gate_name fi_name) as [[[[b n] f0] f1]|e] eqn:Hf;
    [|discriminate].
  destruct (fanin_faults_spec _ _ _ _ _ _ _ Hf) as (g & _ & _ & _ & E0 & E1).
  assert (Heq : forall f, as_equivalent rec f st = Ok r ->
                  appended (fltclass st) (top_fcs st) (fltclass r) (top_fcs r)).
  { intros f. unfold as_equivalent.
    destruct (rec f (add_equivalent f (fltclass st)) (top_fcs st)) as [r1|] eqn:E;
      [|discriminate].
    intros [= <-]. simpl.
    apply (appended_trans _ _ (add_equivalent f (fltclass st)) (top_fcs st));
      [apply appended_add_equivalent | eapply rec_appends; eassumption]. }
  assert (Hdom : forall f, as_dominated rec f st = Ok r ->
                   appended (fltclass st) (top_fcs st) (fltclass r) (top_fcs r)).
  { intros f. unfold as_dominated.
    destruct (rec f (new_class f) (top_fcs st)) as [r1|] eqn:E; [|discriminate].
    intros [= <-]. simpl.
    apply rec_appends in E. destruct E as (_ & _ & _ & HT).
    destruct (fltclass st) as [r0 a0 d0]. repeat split; simpl.
    - exists []. now rewrite app_nil_r.
    - now exists [fltclass r1].
    - exact HT. }
  assert (Hpro : promote b n f0 f1 st = Ok r ->
                 appended (fltclass st) (top_fcs st) (fltclass r) (top_fcs r)).
  { unfold promote. intros [= <-]. simpl.
    destruct (appended_refl (fltclass st) (top_fcs st)) as (R & A & D & _).
    repeat split; trivial. destruct b.
    - exists [new_class f0; new_class f1]. split; trivial.
      repeat constructor; [exists f0 | exists f1]; subst; now split.
    - exists []. split; [now rewrite app_nil_r | constructor]. }
  assert (Hok : Ok st = Ok r ->
                appended (fltclass st) (top_fcs st) (fltclass r) (top_fcs r)).
  { intros [= <-]. apply appended_refl. }
  repeat match goal with
         | |- (if ?c then _ else _) = _ -> _ => destruct c
         end; eauto.
Qed.

Lemma collapse_fanins_appends circ fault_value gate_type gate_name fanins st r :
  collapse_fanins rec circ fault_value gate_type gate_name fanins st = Ok r ->
  appended (fltclass st) (top_fcs st) (fltclass r) (top_fcs r).
Proof.
  revert st. induction fanins as [|fi fanins IH]; intros st; simpl.
  - intros [= <-]. apply appended_refl.
  - destruct (collapse_fanin rec circ fault_value gate_type gate_name fi st)
      as [st1|] eqn:E; [|discriminate].
    intros H. eapply appended_trans;
      [eapply collapse_fanin_appends; eassumption | now apply IH].
Qed.

End CollapseAppends.

Lemma lookup_In (k : string) (m : Gatemap) (g : Gate) :
  lookup k m = Some g -> In (k, g) m.
Proof.
  induction m as [|[k1 g1] m IH]; simpl; [discriminate|].
  destruct (String.eqb_spec k1 k) as [->|Hne].
  - intros [= <-]. now left.
  - intros H. right. now apply IH.
Qed.

Lemma fanin_faults_built circ gate_name gate_inst fi_name :
  fanouts_consistent circ = true ->
  lookup gate_name (gatemap circ) = Some gate_inst ->
  In fi_name (Gate.fanin gate_inst) ->
  fanin_faults circ gate_name fi_name <> Err AttributeError.
Proof.
  intros Hc Hl Hin. unfold fanin_faults.
  destruct (lookup fi_name (gatemap circ)) as [fg|] eqn:Hfi; [|discriminate].
  destruct (length (Gate.fanout fg) =? 1)%nat; [discriminate|].
  destruct (existsb _ (Gate.fanout fg)) eqn:Hex; [discriminate|].
  exfalso. unfold fanouts_consistent in Hc. rewrite forallb_forall in Hc.
  specialize (Hc _ (lookup_In _ _ _ Hl)). cbn [fst snd] in Hc.
  rewrite forallb_forall in Hc. specialize (Hc _ Hin).
  rewrite Hfi in Hc. congruence.
Qed.

Section CollapseBuilds.

Variable circ : Circuit.
Hypothesis Hcons : fanouts_consistent circ = true.
Variable rec : Fault -> FaultClass -> list FaultClass -> cres Collapsed.
Hypothesis rec_builds : forall f fc top, rec f fc top <> Err AttributeError.

Lemma collapse_fanins_builds fault_value gate_type gate_name gate_inst fanins st :
  lookup gate_name (gatemap circ) = Some gate_inst ->
  incl fanins (Gate.fanin gate_inst) ->
  collapse_fanins rec circ fault_value gate_type gate_name fanins st
  <> Err AttributeError.
Proof.
  intros Hl. revert st. induction fanins as [|fi fanins IH]; intros st Hin; simpl;
    [discriminate|].
  assert (Hfi : In fi (Gate.fanin gate_inst)) by (apply Hin; now left).
  assert (Hrest : incl fanins (Gate.fanin gate_inst))
    by (intros x Hx; apply Hin; now right).
  destruct (collapse_fanin rec circ fault_value gate_type gate_name fi st)
    as [st1|e] eqn:E; [now apply IH|].
  intros [= ->]. revert E. unfold collapse_fanin.
  assert (Hb := fanin_faults_built circ gate_name gate_inst fi Hcons Hl Hfi).
  destruct (fanin_faults circ gate_name fi) as [[[[b n] f0] f1]|e];
    [|intros [= ->]; now apply Hb].
  unfold as_equivalent, as_dominated, promote.
  repeat match goal with
         | |- (if ?c then _ else _) = _ -> _ => destruct c
         end;
    try discriminate;
    match goal with
    | |- match rec ?f ?c ?t with _ => _ end = _ -> _ =>
        assert (Hr := rec_builds f c t); destruct (rec f c t);
        [discriminate | intros [= ->]; now apply Hr]
    end.
Qed.

End CollapseBuilds.

Lemma collapse_fault_builds fuel circ flt fc top :
  fanouts_consistent circ = true ->
  collapse_fault fuel circ flt fc top <> Err AttributeError.
Proof.
  intros Hc. revert flt fc top.
  induction fuel as [|fuel IH]; intros flt fc top; simpl; [discriminate|].
  destruct (Fault.is_branch flt || (Fault.stem flt =? EmptyString));
    [discriminate|].
  destruct (lookup (Fault.stem flt) (gatemap circ)) as [g|] eqn:Hl;
    [|discriminate].
  destruct (Gate.gatetype g =? "INPUT"); [discriminate|].
  eapply collapse_fanins_builds; eauto. apply incl_refl.
Qed.

Lemma collapse_fault_appended fuel circ flt fc top r :
  collapse_fault fuel circ flt fc top = Ok r ->
  appended fc top (fltclass r) (top_fcs r).
Proof.
  revert flt fc top r. induction fuel as [|fuel IH]; intros flt fc top r; simpl;
    [discriminate|].
  destruct (Fault.is_branch flt || (Fault.stem flt =? EmptyString));
    [intros [= <-]; apply appended_refl|].
  destruct (lookup (Fault.stem flt) (gatemap circ)) as [g|]; [|discriminate].
  destruct (Gate.gatetype g =? "INPUT"); [intros [= <-]; apply appended_refl|].
  intros H. apply collapse_fanins_appends in H; [exact H | exact IH].
Qed.

(** X12.  On a circuit whose fan-out lists agree with its fan-in lists,
    [collapse_fault] never fails for want of a fan-in fault, and it only
    appends: the class it is given keeps its representative, its
    equivalent faults and its dominated classes in place, new ones
    coming after them, and the top-level list keeps its classes in
    place, every class appended to it being a fresh class of a fault on
    a branch. *)
Theorem collapse_fault_appends fuel circ flt fc top :
  fanouts_consistent circ = true ->
  collapse_fault fuel circ flt fc top <> Err AttributeError /\
  forall r,
    collapse_fault fuel circ flt fc top = Ok r ->
    appended fc top (fltclass r) (top_fcs r).
Proof.
  intros Hc. split; [now apply collapse_fault_builds|].
  intros r. apply collapse_fault_appended.
Qed.

Lemma collapse_fault_appends_witness :
  appended (new_class (Fault.mk Roth.Zero "u" None)) []
    (new_class (Fault.mk Roth.Zero "u" None))
    [new_class (Fault.mk Roth.Zero "s" (Some "u"));
     new_class (Fault.mk Roth.One "s" (Some "u"))].
Proof.
  refine (proj2 (collapse_fault_appends 4 xor_branch_circuit
                   (Fault.mk Roth.Zero "u" None)
                   (new_class (Fault.mk Roth.Zero "u" None)) [] eq_refl)
            (mkCollapsed (new_class (Fault.mk Roth.Zero "u" None))
               [new_class (Fault.mk Roth.Zero "s" (Some "u"));
                new_class (Fault.mk Roth.One "s" (Some "u"))]
               ["s"; "x"]) _).
  vm_compute. reflexivity.
Defined.

(** ** The order listing *)

Lemma fold_order_app (ds : list FaultClass) :
  Forall (fun d => forall acc, order d acc = (acc ++ order d [])%list) ds ->
  forall acc,
    fold_left (fun acc d => order d acc) ds acc
    = (acc ++ flat_map (fun d => order d []) ds)%list.
Proof.
  induction 1 as [|d ds Hd _ IH]; intros acc; simpl.
  - now rewrite app_nil_r.
  - now rewrite Hd, IH, app_assoc.
Qed.

Lemma order_app (fc : FaultClass) (acc : list FaultClass) :
  order fc acc = (acc ++ order fc [])%list.
Proof.
  revert acc. induction fc as [r a d IH] using FaultClass_induction.
  intros acc. simpl.
  destruct (length d =? 0)%nat; [reflexivity|].
  destruct (0 <? length d)%nat.
  - rewrite !(fold_order_app d IH). simpl. now rewrite <- app_assoc.
  - now rewrite !(fold_order_app d IH).
Qed.

Lemma order_node (r : Fault) (a : list Fault) (d : list FaultClass) :
  order (mkFaultClass r a d) []
  = mkFaultClass r a d :: flat_map (fun c => order c []) d.
Proof.
  simpl. destruct d as [|d0 d]; [reflexivity|].
  change (length (d0 :: d) =? 0)%nat with false.
  change (0 <? length (d0 :: d))%nat with true. cbv iota.
  rewrite fold_order_app; [reflexivity|].
  apply Forall_forall. intros; apply order_app.
Qed.

Lemma leaves_in_order (fc : FaultClass) : incl (leaves fc) (order fc []).
Proof.
  induction fc as [r a d IH] using FaultClass_induction.
  rewrite leaves_node, order_node.
  destruct (length d =? 0)%nat.
  - intros x [<- | []]. now left.
  - apply incl_tl. intros x Hin. apply in_flat_map in Hin as (c & Hc & Hx).
    apply in_flat_map. exists c. split; trivial.
    rewrite Forall_forall in IH. now apply (IH c Hc).
Qed.

(** X13.  [order] lists a class and then, one after the other, what it
    lists for each of its dominated classes, after the classes that
    were listed before; the loop of [main] lists the roots that way one
    after the other, and every class of the [.not_dominating] listing
    is in the [.order] listing. *)
Theorem order_is_preorder :
  (forall fc ordered,
     order fc ordered
     = (ordered ++ fc :: flat_map (fun d => order d []) (dominated fc))%list) /\
  (forall collapsed,
     order_all collapsed = flat_map (fun fc => order fc []) collapsed) /\
  (forall collapsed,
     incl (find_no_dominant_faults collapsed []) (order_all collapsed)).
Proof.
  assert (Hall : forall collapsed,
             order_all collapsed = flat_map (fun fc => order fc []) collapsed).
  { intros collapsed. unfold order_all. rewrite fold_order_app; [reflexivity|].
    apply Forall_forall. intros; apply order_app. }
  split; [|split; [exact Hall|]].
  - intros [r a d] ordered. now rewrite order_app, order_node.
  - intros collapsed. rewrite Hall, find_no_dominant_faults_leaves. simpl.
    intros x Hin. apply in_flat_map in Hin as (c & Hc & Hx).
    apply in_flat_map. exists c. split; trivial. now apply leaves_in_order.
Qed.

(** ** The checkpoint listing *)

Lemma leaves_no_dominated (fc : FaultClass) :
  Forall (fun x => dominated x = []) (leaves fc).
Proof.
  induction fc as [r a d IH] using FaultClass_induction.
  rewrite leaves_node. destruct d as [|d0 d]; simpl.
  - now repeat constructor.
  - apply Forall_forall. intros x Hin.
    change (In x (flat_map leaves (d0 :: d))) in Hin.
    apply in_flat_map in Hin as (c & Hc & Hx).
    rewrite Forall_forall in IH. specialize (IH c Hc).
    rewrite Forall_forall in IH. now apply IH.
Qed.

Lemma for_classes_check_points (circ : Circuit) (ds : list FaultClass) :
  Forall (fun d => forall acc acc',
            find_no_dominant_faults_check_points_in_faultclass circ d acc = Ok acc' ->
            Forall (testable circ) (leaves d) /\
            acc' = (acc ++ filter (on_check_point circ) (leaves d))%list) ds ->
  forall acc acc',
    for_classes (find_no_dominant_faults_check_points_in_faultclass circ) ds acc
    = Ok acc' ->
    Forall (testable circ) (flat_map leaves ds) /\
    acc' = (acc ++ filter (on_check_point circ) (flat_map leaves ds))%list.
Proof.
  induction 1 as [|d ds Hd _ IH]; intros acc acc'; simpl.
  - intros [= <-]. split; [constructor | now rewrite app_nil_r].
  - destruct (find_no_dominant_faults_check_points_in_faultclass circ d acc)
      as [acc1|e] eqn:E; [|discriminate].
    intros H. destruct (Hd _ _ E) as [T1 ->]. destruct (IH _ _ H) as [T2 ->].
    split; [apply Forall_app; now split|].
    now rewrite filter_app, app_assoc.
Qed.

Lemma check_points_spec (circ : Circuit) (fc : FaultClass) acc acc' :
  find_no_dominant_faults_check_points_in_faultclass circ fc acc = Ok acc' ->
  Forall (testable circ) (leaves fc) /\
  acc' = (acc ++ filter (on_check_point circ) (leaves fc))%list.
Proof.
  revert acc acc'. induction fc as [r a d IH] using FaultClass_induction.
  intros acc acc'. rewrite leaves_node.
  destruct d as [|d0 d].
  - cbn [find_no_dominant_faults_check_points_in_faultclass length Nat.eqb
         for_classes].
    destruct (is_check_point circ r) as [[|]|e] eqn:Hb; try discriminate;
      intros [= <-]; split.
    + constructor; [exists true; exact Hb | constructor].
    + cbn [filter]. unfold on_check_point. cbn [representative].
      now rewrite Hb.
    + constructor; [exists false; exact Hb | constructor].
    + cbn [filter]. unfold on_check_point. cbn [representative].
      rewrite Hb. now rewrite app_nil_r.
  - intros H. apply (for_classes_check_points circ (d0 :: d) IH acc acc' H).
Qed.

(** X14.  When the checkpoint test can be made on every class without
    dominated classes, the checkpoint listing is the [.not_dominating]
    listing with the classes left out whose representative is neither
    on a branch nor on a gate of type INPUT, in the same order; and a
    class of the [.not_dominating] listing has no dominated class. *)
Theorem check_points_are_filtered circ collapsed :
  Forall (testable circ) (flat_map leaves collapsed) ->
  find_no_dominant_faults_check_points circ collapsed []
  = Ok (filter (on_check_point circ) (find_no_dominant_faults collapsed [])) /\
  Forall (fun fc => dominated fc = []) (find_no_dominant_faults collapsed []).
Proof.
  intros Ht. split.
  - unfold find_no_dominant_faults_check_points.
    destruct (for_classes_total circ collapsed) with (acc := @nil FaultClass)
      as (cps & E); [|exact Ht|].
    { apply Forall_forall. intros; now apply check_points_total. }
    rewrite E. apply for_classes_check_points in E as [_ ->].
    + now rewrite find_no_dominant_faults_leaves.
    + apply Forall_forall. intros; now apply check_points_spec.
  - rewrite find_no_dominant_faults_leaves. simpl.
    apply Forall_forall. intros x Hin. apply in_flat_map in Hin as (c & _ & Hx).
    assert (H := leaves_no_dominated c). rewrite Forall_forall in H. now apply H.
Qed.

Lemma check_points_are_filtered_witness :
  find_no_dominant_faults_check_points nand_circuit nand_forest []
  = Ok (filter (on_check_point nand_circuit)
          (find_no_dominant_faults nand_forest [])) /\
  Forall (fun fc => dominated fc = []) (find_no_dominant_faults nand_forest []).
Proof.
  refine (check_points_are_filtered nand_circuit nand_forest _).
  repeat constructor; eexists; reflexivity.
Defined.

(** X15.  Every fault written to the [.analysis] file is a fault on a
    stem, not on a branch, and the gate of that stem is in the circuit
    and is not of type INPUT. *)
Theorem analysis_lists_inner_stems circ collapsed l f :
  listings circ collapsed = Ok l ->
  In f (analysis_report l) ->
  Fault.is_branch f = false /\
  exists g, lookup (Fault.stem f) (gatemap circ) = Some g /\
            Gate.gatetype g <> "INPUT".
Proof.
  unfold listings.
  destruct (find_no_dominant_faults_check_points circ collapsed [])
    as [cps|e] eqn:E; [|discriminate].
  intros [= <-]. simpl. intros Hin.
  apply analysis_spec in Hin as [Hn Hc].
  unfold find_no_dominant_faults_check_points in E.
  apply for_classes_check_points in E as [Ht ->];
    [|apply Forall_forall; intros; now apply check_points_spec].
  rewrite find_no_dominant_faults_leaves in Hn. simpl in *.
  unfold listed in Hn, Hc. apply in_map_iff in Hn as (fc & <- & Hfc).
  rewrite Forall_forall in Ht. destruct (Ht fc Hfc) as (b & Hb).
  destruct b.
  - exfalso. apply Hc. apply in_map_iff. exists fc. split; trivial.
    apply filter_In. split; trivial. unfold on_check_point. now rewrite Hb.
  - unfold is_check_point in Hb.
    destruct (Fault.is_branch (representative fc)); [discriminate|].
    split; trivial.
    destruct (lookup (Fault.stem (representative fc)) (gatemap circ)) as [g|];
      [|discriminate].
    exists g. split; trivial. injection Hb as Hb. now apply String.eqb_neq.
Qed.

Lemma analysis_lists_inner_stems_witness :
  Fault.is_branch (Fault.mk Roth.One "G" None) = false /\
  exists g, lookup (Fault.stem (Fault.mk Roth.One "G" None)) (gatemap nand_circuit)
            = Some g /\
            Gate.gatetype g <> "INPUT".
Proof.
  refine (analysis_lists_inner_stems nand_circuit nand_forest
            (mkListings
               [Fault.mk Roth.One "A" None; Fault.mk Roth.One "B" None;
                Fault.mk Roth.One "G" None]
               [Fault.mk Roth.One "A" None; Fault.mk Roth.One "B" None]
               [Fault.mk Roth.One "G" None])
            (Fault.mk Roth.One "G" None) eq_refl _).
  now left.
Defined.

(** ** Further statements at concrete inputs *)

Lemma justify_forces_X_fanins_witness :
  two_input "AND" = two_input "AND" /\
  forall k v, In (k, v) [("a", Roth.One); ("b", Roth.One)] ->
    In k ["a"; "b"] /\
    exists g, lookup k (gatemap (two_input "AND")) = Some g
              /\ Gate.value g = Roth.X.
Proof.
  refine (justify_forces_X_fanins Roth.operate
            (snd (gate "g" "AND" ["a"; "b"] [])) Roth.One (two_input "AND")
            (two_input "AND") [("a", Roth.One); ("b", Roth.One)] eq_refl _).
  intros [H | H]; discriminate H.
Defined.

Lemma x_path_check_utils_decides_witness :
  tt = tt /\ (true = true <-> x_path d_holds_D "g").
Proof.
  exact (x_path_check_utils_decides 2 d_holds_D "g" tt tt true eq_refl).
Defined.

(** ** Listing the forest the collapser returns *)

Lemma reps_add_equivalent f fc : reps (add_equivalent f fc) = reps fc.
Proof. now destruct fc. Qed.

Lemma reps_add_dominated child fc :
  reps (add_dominated child fc) = (reps fc ++ reps child)%list.
Proof.
  destruct fc as [r a d]. simpl. rewrite flat_map_app. simpl.
  now rewrite app_nil_r.
Qed.

Lemma leaves_reps (fc : FaultClass) :
  forall x, In x (leaves fc) -> In (representative x) (reps fc).
Proof.
  induction fc as [r a d IH] using FaultClass_induction.
  intros x. rewrite leaves_node. simpl.
  destruct (length d =? 0)%nat.
  - intros [<- | []]. now left.
  - intros Hin. right. apply in_flat_map in Hin as (c & Hc & Hx).
    apply in_flat_map. exists c. split; trivial.
    rewrite Forall_forall in IH. now apply (IH c Hc).
Qed.

Lemma listable_branch circ f : Fault.is_branch f = true -> listable circ f.
Proof. intros H. exists true. unfold is_check_point. now rewrite H. Qed.

Lemma listable_stem circ f :
  lookup (Fault.stem f) (gatemap circ) <> None -> listable circ f.
Proof.
  intros H. unfold listable, is_check_point.
  destruct (Fault.is_branch f); [now exists true|].
  destruct (lookup (Fault.stem f) (gatemap circ)); [eauto | contradiction].
Qed.

Section CollapseListable.

Variables circ circ' : Circuit.
Hypothesis Hnamed : named_in circ circ'.

Lemma fanin_faults_listable gate_name fi_name b n f0 f1 :
  fanin_faults circ' gate_name fi_name = Ok (b, n, f0, f1) ->
  listable circ f0 /\ listable circ f1.
Proof.
  intros Hf.
  destruct (fanin_faults_spec _ _ _ _ _ _ _ Hf) as (g & Hg & -> & _ & -> & ->).
  destruct (Hnamed _ _ Hg) as [Hn Hk].
  destruct b; split;
    try (apply listable_branch; reflexivity);
    apply listable_stem; simpl; now rewrite Hn.
Qed.

Variable rec : Fault -> FaultClass -> list FaultClass -> cres Collapsed.
Hypothesis rec_listable :
  forall f fc top r,
    rec f fc top = Ok r ->
    Forall (listable circ) (reps fc) -> all_listable circ top ->
    Forall (listable circ) (reps (fltclass r)) /\ all_listable circ (top_fcs r).

Lemma collapse_fanin_listable fault_value gate_type gate_name fi_name st r :
  collapse_fanin rec circ' fault_value gate_type gate_name fi_name st = Ok r ->
  Forall (listable circ) (reps (fltclass st)) -> all_listable circ (top_fcs st) ->
  Forall (listable circ) (reps (fltclass r)) /\ all_listable circ (top_fcs r).
Proof.
  unfold collapse_fanin.
  destruct (fanin_faults circ' gate_name fi_name) as [[[[b n] f0] f1]|e] eqn:Hf;
    [|discriminate].
  destruct (fanin_faults_listable _ _ _ _ _ _ Hf) as [L0 L1].
  intros H Hfc Htop.
  assert (Heq : forall f, listable circ f -> as_equivalent rec f st = Ok r ->
                  Forall (listable circ) (reps (fltclass r))
                  /\ all_listable circ (top_fcs r)).
  { intros f Lf. unfold as_equivalent.
    destruct (rec f (add_equivalent f (fltclass st)) (top_fcs st)) as [r1|] eqn:E;
      [|discriminate].
    intros [= <-]. simpl. eapply rec_listable; [eassumption| |assumption].
    now rewrite reps_add_equivalent. }
  assert (Hdom : forall f, listable circ f -> as_dominated rec f st = Ok r ->
                   Forall (listable circ) (reps (fltclass r))
                   /\ all_listable circ (top_fcs r)).
  { intros f Lf. unfold as_dominated.
    destruct (rec f (new_class f) (top_fcs st)) as [r1|] eqn:E; [|discriminate].
    intros [= <-]. simpl.
    destruct (rec_listable _ _ _ _ E) as [H1 H2]; trivial.
    { simpl. now repeat constructor. }
    split; trivial. rewrite reps_add_dominated. apply Forall_app. now split. }
  assert (Hpro : promote b n f0 f1 st = Ok r ->
                 Forall (listable circ) (reps (fltclass r))
                 /\ all_listable circ (top_fcs r)).
  { unfold promote. intros [= <-]. simpl. split; trivial.
    destruct b; trivial. apply Forall_app. split; trivial.
    repeat constructor; assumption. }
  assert (Hok : Ok st = Ok r ->
                Forall (listable circ) (reps (fltclass r))
                /\ all_listable circ (top_fcs r)).
  { intros [= <-]. now split. }
  revert H.
  repeat match goal with
         | |- (if ?c then _ else _) = _ -> _ => destruct c
         end; eauto.
Qed.

Lemma collapse_fanins_listable fault_value gate_type gate_name fanins st r :
  collapse_fanins rec circ' fault_value gate_type gate_name fanins st = Ok r ->
  Forall (listable circ) (reps (fltclass st)) -> all_listable circ (top_fcs st) ->
  Forall (listable circ) (reps (fltclass r)) /\ all_listable circ (top_fcs r).
Proof.
  revert st. induction fanins as [|fi fanins IH]; intros st; simpl.
  - intros [= <-]. now split.
  - destruct (collapse_fanin rec circ' fault_value gate_type gate_name fi st)
      as [st1|] eqn:E; [|discriminate].
    intros H Hfc Htop.
    destruct (collapse_fanin_listable _ _ _ _ _ _ E Hfc Htop) as [H1 H2].
    now apply (IH st1).
Qed.

End CollapseListable.

Lemma collapse_fault_listable circ circ' fuel flt fc top r :
  named_in circ circ' ->
  collapse_fault fuel circ' flt fc top = Ok r ->
  Forall (listable circ) (reps fc) -> all_listable circ top ->
  Forall (listable circ) (reps (fltclass r)) /\ all_listable circ (top_fcs r).
Proof.
  intros Hn. revert flt fc top r.
  induction fuel as [|fuel IH]; intros flt fc top r; simpl; [discriminate|].
  destruct (Fault.is_branch flt || (Fault.stem flt =? EmptyString));
    [intros [= <-]; now split|].
  destruct (lookup (Fault.stem flt) (gatemap circ')) as [g|]; [|discriminate].
  destruct (Gate.gatetype g =? "INPUT"); [intros [= <-]; now split|].
  intros H Hfc Htop.
  eapply collapse_fanins_listable;
    [exact Hn | | exact H | exact Hfc | exact Htop].
  intros; eapply IH; eassumption.
Qed.

Lemma collapse_loop_listable pick circ steps fuel circ' top gate_queue forest :
  named_in circ circ' ->
  all_listable circ top ->
  collapse_loop pick steps fuel circ' top gate_queue = Ok forest ->
  all_listable circ forest.
Proof.
  revert circ' top gate_queue.
  induction steps as [|steps IH]; intros circ' top gate_queue Hn Htop;
    destruct gate_queue as [|q0 queue];
    try (intros [= <-]; exact Htop); try discriminate.
  cbn [collapse_loop].
  set (gate_queue := q0 :: queue).
  set (i := Nat.modulo (pick gate_queue) (length gate_queue)).
  set (gname := nth i gate_queue EmptyString).
  destruct (lookup gname (gatemap circ')) as [g|] eqn:Hg; [|discriminate].
  destruct (Gate.flag g); [now apply IH|].
  unfold collapse_root.
  destruct (collapse_fault fuel circ' (Fault.mk Roth.Zero gname None) _ [])
    as [r0|] eqn:E0; [|discriminate].
  destruct (collapse_fault fuel circ' (Fault.mk Roth.One gname None) _ [])
    as [r1|] eqn:E1; [|discriminate].
  assert (Lroot : forall v, Forall (listable circ)
                              (reps (new_class (Fault.mk v gname None)))).
  { intros v. simpl. repeat constructor. apply listable_stem. simpl.
    now destruct (Hn _ _ Hg). }
  destruct (collapse_fault_listable _ _ _ _ _ _ _ Hn E0 (Lroot _)) as [A0 T0];
    [constructor|].
  destruct (collapse_fault_listable _ _ _ _ _ _ _ Hn E1 (Lroot _)) as [A1 T1];
    [constructor|].
  apply IH.
  - intros k g' Hl. simpl in Hl.
    destruct (String.eqb_spec k gname) as [->|Hne].
    + rewrite lookup_update, Hg in Hl. injection Hl as <-.
      exact (Hn _ _ Hg).
    + rewrite lookup_update_other in Hl by exact Hne. exact (Hn _ _ Hl).
  - apply Forall_app. split; trivial. constructor; trivial.
    apply Forall_app. split; trivial. now constructor.
Qed.

Lemma lookup_reset_flags k circ :
  lookup k (gatemap (reset_flags circ))
  = option_map (Gate.set_flag false) (lookup k (gatemap circ)).
Proof.
  unfold reset_flags. simpl.
  induction (gatemap circ) as [|[k1 g1] m IH]; simpl; trivial.
  destruct (k1 =? k); [reflexivity | exact IH].
Qed.

(** X16.  In a circuit that stores every gate under its own name and
    whose fan-out lists agree with its fan-in lists, the forest
    [collapse_circuit] returns can always be listed: the checkpoint test
    raises no KeyError on it, so the [.not_dominating],
    [.not_dominating_checkpoint] and [.analysis] listings are
    produced. *)
Theorem collapsed_forest_is_listed pick steps fuel circ forest :
  well_named circ ->
  fanouts_consistent circ = true ->
  collapse_circuit pick steps fuel circ = Ok forest ->
  exists l, listings circ forest = Ok l.
Proof.
  intros Hw _ H. unfold collapse_circuit in H.
  apply (collapse_loop_listable pick circ) in H; [| |constructor].
  - unfold listings, find_no_dominant_faults_check_points.
    destruct (for_classes_total circ forest) with (acc := @nil FaultClass)
      as (cps & E).
    + apply Forall_forall. intros; now apply check_points_total.
    + apply Forall_forall. intros x Hin.
      apply in_flat_map in Hin as (c & Hc & Hx).
      unfold all_listable in H. rewrite Forall_forall in H.
      specialize (H c Hc). rewrite Forall_forall in H.
      apply H. now apply leaves_reps.
    + rewrite E. eauto.
  - intros k g Hl. rewrite lookup_reset_flags in Hl.
    destruct (lookup k (gatemap circ)) as [g0|] eqn:Hk; [|discriminate].
    injection Hl as <-. split; [exact (Hw _ _ Hk) | discriminate].
Qed.

Lemma collapsed_forest_is_listed_witness :
  exists l, listings nand_circuit nand_forest = Ok l.
Proof.
  refine (collapsed_forest_is_listed (fun _ => 0) 1 2 nand_circuit nand_forest
            _ eq_refl eq_refl).
  intros k g. unfold nand_circuit, gate. cbn [gatemap lookup].
  destruct (String.eqb_spec "A" k) as [<-|_]; [now intros [= <-]|].
  destruct (String.eqb_spec "B" k) as [<-|_]; [now intros [= <-]|].
  destruct (String.eqb_spec "G" k) as [<-|_]; [now intros [= <-]|].
  discriminate.
Defined.

(** ** The D-frontier scan of the engine *)

Lemma scan_fanins_spec gate_name gate_inst (fanins : list string)
    (ec : nat) (v : Roth) (D : list string) (c c' : Circuit) ec' v' D' :
  for_each fanins (ec, (v, D))
    (fun fanin_name st =>
       g <- get_gate fanin_name ;;
       let value := Gate.value g in
       let error_count := if is_D_or_D_b value then S (fst st) else fst st in
       ret (error_count,
            (value,
             if (0 <? error_count)%nat && Roth.eqb (Gate.value gate_inst) Roth.X
             then (snd (snd st) ++ [gate_name])%list
             else snd (snd st))))
    c = (c', Norm (ec', (v', D'))) ->
  c' = c /\
  exists extra,
    D' = (D ++ extra)%list /\
    (forall x, In x extra -> x = gate_name) /\
    (extra <> [] <->
     Roth.eqb (Gate.value gate_inst) Roth.X = true /\
     ((0 < ec /\ fanins <> [])
      \/ existsb (fun n => is_D_or_D_b (value_of c n)) fanins = true)).
Proof.
  revert ec v D. induction fanins as [|n fanins IH]; intros ec v D; simpl.
  - intros [= <- <- <- <-]. split; trivial. exists []. rewrite app_nil_r.
    repeat split; try contradiction.
    intros (_ & [[_ H] | H]); [now apply H | discriminate].
  - unfold bind at 1. unfold bind at 1. unfold get_gate.
    destruct (lookup n (gatemap c)) as [g|] eqn:Hg; [|discriminate].
    unfold value_of at 1. rewrite Hg. cbn [fst snd].
    destruct (Roth.eqb (Gate.value gate_inst) Roth.X) eqn:HX;
      destruct (is_D_or_D_b (Gate.value g)) eqn:Hd;
      rewrite ?andb_true_r, ?andb_false_r; cbn [orb];
      try change (0 <? S ec)%nat with true; cbv iota;
      try match goal with
          | |- context [(0 <? ec)%nat] =>
              destruct (Nat.ltb_spec 0 ec) as [Hec|Hec]
          end;
      unfold ret at 1; intros H; apply IH in H;
      destruct H as (-> & extra & -> & Hx & Hiff); (split; [reflexivity|]).
    + exists (gate_name :: extra). rewrite <- app_assoc.
      split; [reflexivity|]. split.
      * intros x [<- | Hin]; auto.
      * split; [intros _; split; [reflexivity | now right] | discriminate].
    + exists (gate_name :: extra). rewrite <- app_assoc.
      split; [reflexivity|]. split.
      * intros x [<- | Hin]; auto.
      * split; [|discriminate]. intros _. split; [reflexivity|].
        left. split; [exact Hec | discriminate].
    + exists extra. split; [reflexivity|]. split; [exact Hx|].
      rewrite Hiff. split.
      * intros (_ & [[Hlt _] | He]); [lia|]. split; [reflexivity | now right].
      * intros (_ & [[Hlt _] | He]); [lia|]. split; [reflexivity | now right].
    + exists extra. split; [reflexivity|]. split; [exact Hx|].
      rewrite Hiff. split; intros [Hf _]; discriminate.
    + exists extra. split; [reflexivity|]. split; [exact Hx|].
      rewrite Hiff. split; intros [Hf _]; discriminate.
Qed.

Lemma scan_gate_spec gate_name gate_inst (v : Roth) (D : list string)
    (c c' : Circuit) v' D' :
  scan_gate gate_name gate_inst (v, D) c = (c', Norm (v', D')) ->
  c' = c /\
  forall n, In n D' <->
            In n D \/ (n = gate_name /\ d_frontier c gate_inst = true).
Proof.
  unfold scan_gate, bind.
  match goal with
  | |- context [for_each ?l ?b ?body c] =>
      destruct (for_each l b body c) as [c1 [[ec1 [v1 D1]]| |]] eqn:E
  end; try discriminate.
  intros [= <- <- <-].
  apply scan_fanins_spec in E. destruct E as (-> & extra & -> & Hx & Hiff).
  split; trivial. intros n. rewrite in_app_iff. unfold d_frontier.
  split.
  - intros [H | H]; [now left|]. right. split; [now apply Hx|].
    assert (Hne : extra <> []) by (intros ->; contradiction).
    apply Hiff in Hne as (HX & [[Hlt _] | He]); [lia|].
    now rewrite He, HX.
  - intros [H | [-> H]]; [now left|]. right.
    apply andb_true_iff in H as [He HX].
    assert (Hne : extra <> []) by (apply Hiff; split; [exact HX | now right]).
    destruct extra as [|x extra]; [contradiction|].
    left. apply Hx. now left.
Qed.

Lemma scan_gates_spec (l : Gatemap) (v : Roth) (D : list string)
    (c c' : Circuit) v' D' :
  for_each l (v, D) (fun ng st => scan_gate (fst ng) (snd ng) st) c
  = (c', Norm (v', D')) ->
  c' = c /\
  forall n, In n D' <->
            In n D \/ exists g, In (n, g) l /\ d_frontier c g = true.
Proof.
  revert v D. induction l as [|[k g] l IH]; intros v D; simpl.
  - intros [= <- <- <-]. split; trivial. intros n. split; [now left|].
    intros [H | (g & [] & _)]. exact H.
  - unfold bind at 1.
    destruct (scan_gate k g (v, D) c) as [c1 [[v1 D1]| |]] eqn:E;
      try discriminate.
    apply scan_gate_spec in E. destruct E as [-> HD1].
    intros H. apply IH in H. destruct H as [-> HD']. split; trivial.
    intros n. rewrite HD', HD1. split.
    + intros [[H | [-> H]] | (g' & Hin & Hd)].
      * now left.
      * right. exists g. split; [now left | exact H].
      * right. exists g'. split; [now right | exact Hd].
    + intros [H | (g' & [[= <- <-] | Hin] & Hd)].
      * left. now left.
      * left. right. now split.
      * right. exists g'. now split.
Qed.

(** X17.  The scan that unique D-drive starts with reads the circuit
    only.  The names it collects in [D_frontiers] are exactly the keys
    of the gates that hold X with a D or D_b on a fan-in, each possibly
    several times; and when it sets [is_only_d_frontier], the list is a
    single name, of a gate that has [location] among its fan-ins. *)
Theorem d_drive_scan_finds_frontier location value c c' v D_frontiers is_only :
  d_drive_scan location value c = (c', Norm (v, D_frontiers, is_only)) ->
  c' = c /\
  (forall n, In n D_frontiers <->
             exists g, In (n, g) (gatemap c) /\ d_frontier c g = true) /\
  (is_only = true ->
   exists n g, D_frontiers = [n] /\ lookup n (gatemap c) = Some g /\
               In location (Gate.fanin g)).
Proof.
  unfold d_drive_scan. unfold bind at 1. unfold items. unfold bind at 1.
  match goal with
  | |- context [for_each ?l ?b ?body c] =>
      destruct (for_each l b body c) as [c1 [[v1 D1]| |]] eqn:E
  end; try discriminate.
  apply scan_gates_spec in E. destruct E as [-> HD].
  assert (Hset : forall n, In n D1 <->
                   exists g, In (n, g) (gatemap c) /\ d_frontier c g = true).
  { intros n. rewrite HD. split; [intros [[] | H]; exact H | now right]. }
  cbn [snd fst].
  destruct (Nat.eqb_spec (length D1) 1) as [Hlen|Hlen].
  - destruct D1 as [|d0 [|d1 D1]]; try discriminate Hlen. cbn [first].
    unfold bind, ret, get_gate.
    destruct (lookup d0 (gatemap c)) as [g|] eqn:Hg; [|discriminate].
    intros [= <- <- <- <-]. repeat split; try apply Hset.
    intros Hex. apply existsb_exists in Hex as (x & Hin & Heq).
    apply String.eqb_eq in Heq. subst x.
    exists d0, g. now repeat split.
  - intros [= <- <- <- <-]. repeat split; try apply Hset. discriminate.
Qed.

Lemma d_drive_scan_finds_frontier_witness :
  d_holds_D = d_holds_D /\
  (forall n, In n ["g"] <->
             exists g, In (n, g) (gatemap d_holds_D)
                       /\ d_frontier d_holds_D g = true) /\
  (true = true ->
   exists n g, ["g"] = [n] /\ lookup n (gatemap d_holds_D) = Some g /\
               In "d" (Gate.fanin g)).
Proof.
  refine (d_drive_scan_finds_frontier "d" Roth.One d_holds_D d_holds_D Roth.D
            ["g"] true _).
  vm_compute. reflexivity.
Defined.
